(** * RememorySet: a set stored in a named shared-memory segment

    A shallow embedding of [src/rememory/sharedSet.py].  The Python class
    keeps a pickled [set] in a [multiprocessing.shared_memory] segment and
    wraps every public method in [with self._lock].  The embedding models

    - the operating system's shared-memory namespace and segments
      (POSIX semantics: a name maps to a segment, an unlinked segment stays
      alive for the handles that still map it, a new segment is zero-filled
      and has exactly the requested size),
    - the Python objects ([RememorySet] instances) as a heap addressed by
      references, because [_writeData] mutates [self._shm],
    - exceptions, which leave every effect performed before them in place,
    - the order of lock acquisitions, releases and segment reads as a trace.

    The pickle codec is a library the class calls; it is taken as a pair of
    section variables [dumps]/[loads] with the two facts about pickle streams
    the class relies on.  [loads] tells the four things [pickle.loads] can
    do on a stream: return a set, return another object, raise an
    [Exception], or raise a [BaseException] that is not one.  [BoolPickle]
    instantiates the codec with the protocol-4 encoding of [set[bool]]. *)

From Stdlib Require Import ZArith Lia.
From Stdlib Require Import Strings.Byte.
From stdpp Require Import base option list gmap strings.

Local Open Scope string_scope.
Local Open Scope list_scope.
Local Open Scope Z_scope.

(** ** Bytes *)

Definition is_zero (b : byte) : bool := Byte.eqb b x00.

(** [bytes.rstrip(b"\x00")]: drop every trailing zero byte. *)
Definition rstrip (bs : list byte) : list byte :=
  foldr (fun b acc => match acc with
                   | [] => if is_zero b then [] else [b]
                   | _ :: _ => b :: acc
                   end) [] bs.

(** [b"\x00" * n]; a negative [n] gives the empty byte string. *)
Definition zeros (n : Z) : list byte := replicate (Z.to_nat n) x00.

Definition len {A} (l : list A) : Z := Z.of_nat (length l).

(** ** Objects

    Segments are addressed by their index in the world's [shm_mem]. *)

(** A [shared_memory.SharedMemory] object: its name, the size read from
    [fstat] when it was opened, and its mapping ([buf]), which [close()]
    sets to [None]. *)
Record SharedMemory : Type := mkShm {
  shm_name : string;
  shm_size : Z;
  shm_buf : option nat
}.

(** The fields of a [RememorySet] instance ([_lock] is [NamedLock(_name)],
    so it is identified by [_name]). *)
Record RememorySet : Type := mkSet {
  _name : string;
  _size : Z;
  _shm : option SharedMemory
}.

(** ** The world: the operating system's shared memory and the heap

    [shm_names] is the namespace ([shm_open] looks names up in it,
    [shm_unlink] removes them); [shm_mem] holds the segments, each a byte
    array whose length is the segment's size.  An unlinked segment stays in
    [shm_mem]: handles that mapped it keep using it.  [objs] is the heap of
    [RememorySet] objects. *)
Record world : Type := mkWorld {
  shm_names : gmap string nat;
  shm_mem : list (list byte);
  objs : list RememorySet
}.

Definition empty_world : world := mkWorld ∅ [] [].

(** ** Events: what a method does to locks, and when it reads a segment *)

Inductive event : Type :=
  | Acquire (name : string)
  | Release (name : string)
  | Snapshot (name : string).

(** References to [RememorySet] objects: indices into [objs]. *)
Abbreviation ref := nat.

(** ** Exceptions and the method monad *)

Section Rememory.

Context {T : Type} `{Countable T}.

(** A Python object as [_readData] can return it: a set of [T], or any
    other object, which the model keeps as the stream it was unpickled
    from. *)
Inductive pyobj : Type :=
  | PySet (s : gset T)
  | PyOther (raw : list byte).

(** What [pickle.loads] does on a stream. *)
Inductive unpickled : Type :=
  | Loaded (s : gset T)    (* returns the set [s] *)
  | LoadedOther            (* returns an object that is not a set of [T] *)
  | RaisedException        (* raises an [Exception]: [UnpicklingError], [EOFError], ... *)
  | RaisedBaseException.   (* raises a [BaseException] that is not an [Exception]:
                              [SystemExit], [KeyboardInterrupt] *)

(** [pickle.dumps] on sets of [T], and [pickle.loads]. *)
Variable dumps : gset T -> list byte.
Variable loads : list byte -> unpickled.

(** The element [set.pop()] takes from a non-empty set (unspecified by
    Python; any function will do). *)
Variable pick : gset T -> T.

Inductive exn : Type :=
  | FileNotFoundError
  | FileExistsError
  | ValueError
  | TypeError
  | AttributeError
  | KeyError (arg : T + string)  (* [KeyError(item)] or [KeyError("message")] *)
  | BaseException                (* one that is not an [Exception], as [SystemExit] *)
  | DanglingReference            (* a reference to no object: not a Python state *)
  | NotASet.                     (* a set operation on an object that is not a set:
                                    what Python does then depends on the object
                                    and is outside the model *)

Inductive outcome (A : Type) : Type :=
  | Return (a : A)
  | Raise (e : exn).
Arguments Return {A}.
Arguments Raise {A}.

(** A computation runs on a world and gives its outcome, the world it
    leaves (also when it raises) and the events it performed. *)
Definition M (A : Type) : Type := world -> outcome A * world * list event.

Definition ret {A} (a : A) : M A := fun w => (Return a, w, []).
Definition raise {A} (e : exn) : M A := fun w => (Raise e, w, []).

Definition bind {A B} (m : M A) (k : A -> M B) : M B := fun w =>
  match m w with
  | (Return a, w1, t1) =>
      match k a w1 with (r, w2, t2) => (r, w2, t1 ++ t2) end
  | (Raise e, w1, t1) => (Raise e, w1, t1)
  end.

Notation "x <- m ;; k" := (bind m (fun x => k))
  (at level 100, m at next level, right associativity).
Notation "m ;;; k" := (bind m (fun _ => k))
  (at level 100, right associativity).

(** [try: m except FileNotFoundError: h] *)
Definition try_except_FileNotFoundError {A} (m h : M A) : M A := fun w =>
  match m w with
  | (Raise FileNotFoundError, w1, t1) =>
      match h w1 with (r, w2, t2) => (r, w2, t1 ++ t2) end
  | r => r
  end.

(** [with lock: body]: the lock is released on every exit path. *)
Definition with_lock {A} (name : string) (body : M A) : M A := fun w =>
  match body w with
  | (r, w1, t) => (r, w1, Acquire name :: t ++ [Release name])
  end.

Definition outcome_of {A} (r : outcome A * world * list event) : outcome A := r.1.1.
Definition world_of {A} (r : outcome A * world * list event) : world := r.1.2.
Definition trace_of {A} (r : outcome A * world * list event) : list event := r.2.

(** ** The heap of [RememorySet] objects *)


Definition get_obj (self : ref) : M RememorySet := fun w =>
  match objs w !! self with
  | Some h => (Return h, w, [])
  | None => (Raise DanglingReference, w, [])
  end.

(** [self._shm = s] *)
Definition set_shm (self : ref) (s : option SharedMemory) : M unit := fun w =>
  (Return tt,
   mkWorld (shm_names w) (shm_mem w)
           (alter (fun h => mkSet (_name h) (_size h) s) self (objs w)),
   []).

(** [self._shm], for a method call or attribute access on it: on [None]
    that is an [AttributeError]. *)
Definition the_shm (self : ref) : M SharedMemory :=
  h <- get_obj self ;;
  match _shm h with
  | Some shm => ret shm
  | None => raise AttributeError
  end.

(** ** [multiprocessing.shared_memory.SharedMemory] *)

(** [SharedMemory(name=name)]: attach to an existing segment. *)
Definition SharedMemory_attach (name : string) : M SharedMemory := fun w =>
  match shm_names w !! name with
  | None => (Raise FileNotFoundError, w, [])
  | Some seg =>
      (Return (mkShm name (len (default [] (shm_mem w !! seg))) (Some seg)), w, [])
  end.

(** [SharedMemory(name=name, create=True, size=size)]: the size is checked
    first, then the name must be free; the new segment is zero-filled. *)
Definition SharedMemory_create (name : string) (size : Z) : M SharedMemory := fun w =>
  if size <? 0 then (Raise ValueError, w, [])
  else if size =? 0 then (Raise ValueError, w, [])
  else match shm_names w !! name with
       | Some _ => (Raise FileExistsError, w, [])
       | None =>
           let seg := length (shm_mem w) in
           (Return (mkShm name size (Some seg)),
            mkWorld (<[name := seg]> (shm_names w)) (shm_mem w ++ [zeros size]) (objs w),
            [])
       end.

(** [shm.close()]: drops the mapping; [size] and [name] stay readable. *)
Definition SharedMemory_close (shm : SharedMemory) : SharedMemory :=
  mkShm (shm_name shm) (shm_size shm) None.

(** [shm.unlink()]: removes the name, whatever segment it now maps to. *)
Definition SharedMemory_unlink (shm : SharedMemory) : M unit := fun w =>
  match shm_names w !! shm_name shm with
  | None => (Raise FileNotFoundError, w, [])
  | Some _ =>
      (Return tt, mkWorld (delete (shm_name shm) (shm_names w)) (shm_mem w) (objs w), [])
  end.

(** [bytes(shm.buf)] *)
Definition buf_bytes (shm : SharedMemory) : M (list byte) := fun w =>
  match shm_buf shm with
  | None => (Raise TypeError, w, [])
  | Some seg => (Return (default [] (shm_mem w !! seg)), w, [Snapshot (shm_name shm)])
  end.

Definition store (seg : nat) (bs : list byte) : M unit := fun w =>
  (Return tt, mkWorld (shm_names w) (<[seg := bs]> (shm_mem w)) (objs w), []).

(** [shm.buf[:n] = data]: the slice has [min n size] bytes and the
    assignment needs [data] to have as many. *)
Definition buf_assign_to (shm : SharedMemory) (n : Z) (data : list byte) : M unit :=
  match shm_buf shm with
  | None => raise TypeError
  | Some seg => fun w =>
      let old := default [] (shm_mem w !! seg) in
      if len data =? Z.min n (len old)
      then store seg (data ++ drop (Z.to_nat n) old) w
      else (Raise ValueError, w, [])
  end.

(** [shm.buf[n:] = data] *)
Definition buf_assign_from (shm : SharedMemory) (n : Z) (data : list byte) : M unit :=
  match shm_buf shm with
  | None => raise TypeError
  | Some seg => fun w =>
      let old := default [] (shm_mem w !! seg) in
      if len data =? len old - Z.min n (len old)
      then store seg (take (Z.to_nat n) old ++ data) w
      else (Raise ValueError, w, [])
  end.

(** ** Internal helpers of [RememorySet] *)

(** [try: return pickle.loads(raw) except Exception: return set()]: the
    object [pickle.loads] gives is returned whatever it is, an [Exception]
    gives the empty set, and any other exception goes to the caller. *)
Definition _readData (self : ref) : M pyobj :=
  h <- get_obj self ;;
  match _shm h with
  | None => ret (PySet ∅)
  | Some shm =>
      buf <- buf_bytes shm ;;
      let raw := rstrip buf in
      match raw with
      | [] => ret (PySet ∅)
      | _ :: _ =>
          match loads raw with
          | Loaded s => ret (PySet s)
          | LoadedOther => ret (PyOther raw)
          | RaisedException => ret (PySet ∅)
          | RaisedBaseException => raise BaseException
          end
      end
  end.

(** The methods go on with the set operations of the object they read; the
    model follows them when the object is a set. *)
Definition the_set (obj : pyobj) : M (gset T) :=
  match obj with
  | PySet s => ret s
  | PyOther _ => raise NotASet
  end.

Definition _writeData (self : ref) (data : gset T) : M unit :=
  h <- get_obj self ;;
  match _shm h with
  | None => ret tt
  | Some shm =>
      let encoded := dumps data in
      (if len encoded >? shm_size shm then
         let newSize := Z.max (len encoded) (shm_size shm * 2) in
         set_shm self (Some (SharedMemory_close shm)) ;;;
         SharedMemory_unlink shm ;;;
         new <- SharedMemory_create (_name h) newSize ;;
         set_shm self (Some new)
       else ret tt) ;;;
      shm1 <- the_shm self ;;
      buf_assign_to shm1 (len encoded) encoded ;;;
      shm2 <- the_shm self ;;
      buf_assign_from shm2 (len encoded) (zeros (shm_size shm2 - len encoded))
  end.

(** [with self._lock: body] *)
Definition locked {A} (self : ref) (body : M A) : M A :=
  h <- get_obj self ;;
  with_lock (_name h) body.

(** ** Construction *)

(** [RememorySet(name, size)].  [between] is what other processes do to the
    world between this constructor's failed attach and its create; a
    constructor running alone has [between = id]. *)
Definition init_racing (between : world -> world) (name : string) (size : Z) : M ref :=
  fun w =>
    let self := length (objs w) in
    let w0 := mkWorld (shm_names w) (shm_mem w) (objs w ++ [mkSet name size None]) in
    (try_except_FileNotFoundError
       (shm <- SharedMemory_attach name ;;
        set_shm self (Some shm))
       ((fun w1 => (Return tt, between w1, [])) ;;;
        shm <- SharedMemory_create name size ;;
        set_shm self (Some shm) ;;;
        _writeData self ∅) ;;;
     ret self) w0.

Definition __init__ (name : string) (size : Z) : M ref :=
  init_racing id name size.

(** ** Set methods *)

Definition add (self : ref) (item : T) : M unit :=
  locked self
    (obj <- _readData self ;;
     data <- the_set obj ;;
     _writeData self ({[item]} ∪ data)).

(** [set.remove] raises [KeyError(item)] when the item is missing. *)
Definition remove (self : ref) (item : T) : M unit :=
  locked self
    (obj <- _readData self ;;
     data <- the_set obj ;;
     data' <- (if decide (item ∈ data) then ret (data ∖ {[item]})
               else raise (KeyError (inl item))) ;;
     _writeData self data').

Definition discard (self : ref) (item : T) : M unit :=
  locked self
    (obj <- _readData self ;;
     data <- the_set obj ;;
     _writeData self (data ∖ {[item]})).

Definition pop (self : ref) : M T :=
  locked self
    (obj <- _readData self ;;
     data <- the_set obj ;;
     if decide (data = ∅) then raise (KeyError (inr "pop from empty set"))
     else
       let result := pick data in
       _writeData self (data ∖ {[result]}) ;;;
       ret result).

Definition clear (self : ref) : M unit :=
  locked self (_writeData self ∅).

Definition update (self : ref) (others : list (gset T)) : M unit :=
  locked self
    (obj <- _readData self ;;
     data <- the_set obj ;;
     _writeData self (foldl (∪) data others)).

Definition intersectionUpdate (self : ref) (others : list (gset T)) : M unit :=
  locked self
    (obj <- _readData self ;;
     data <- the_set obj ;;
     _writeData self (foldl (∩) data others)).

Definition differenceUpdate (self : ref) (others : list (gset T)) : M unit :=
  locked self
    (obj <- _readData self ;;
     data <- the_set obj ;;
     _writeData self (foldl (∖) data others)).

Definition symmetric_difference (a b : gset T) : gset T := (a ∖ b) ∪ (b ∖ a).

Definition symmetricDifferenceUpdate (self : ref) (other : gset T) : M unit :=
  locked self
    (obj <- _readData self ;;
     data <- the_set obj ;;
     _writeData self (symmetric_difference data other)).

(** ** Read-only methods (the argument of the set-valued ones is a plain
    [set]) *)

Definition __contains__ (self : ref) (item : T) : M bool :=
  locked self
    (obj <- _readData self ;;
     data <- the_set obj ;;
     ret (bool_decide (item ∈ data))).

Definition __len__ (self : ref) : M Z :=
  locked self
    (obj <- _readData self ;;
     data <- the_set obj ;;
     ret (Z.of_nat (size data))).

Definition __iter__ (self : ref) : M (list T) :=
  locked self
    (obj <- _readData self ;;
     data <- the_set obj ;;
     ret (elements data)).

Definition copy (self : ref) : M (gset T) :=
  locked self
    (obj <- _readData self ;;
     data <- the_set obj ;;
     ret data).

Definition isDisjoint (self : ref) (other : gset T) : M bool :=
  locked self
    (obj <- _readData self ;;
     data <- the_set obj ;;
     ret (bool_decide (data ## other))).

Definition isSubset (self : ref) (other : gset T) : M bool :=
  locked self
    (obj <- _readData self ;;
     data <- the_set obj ;;
     ret (bool_decide (data ⊆ other))).

Definition isSuperset (self : ref) (other : gset T) : M bool :=
  locked self
    (obj <- _readData self ;;
     data <- the_set obj ;;
     ret (bool_decide (other ⊆ data))).

Definition union (self : ref) (others : list (gset T)) : M (gset T) :=
  locked self
    (obj <- _readData self ;;
     data <- the_set obj ;;
     ret (foldl (∪) data others)).

Definition intersection (self : ref) (others : list (gset T)) : M (gset T) :=
  locked self
    (obj <- _readData self ;;
     data <- the_set obj ;;
     ret (foldl (∩) data others)).

Definition difference (self : ref) (others : list (gset T)) : M (gset T) :=
  locked self
    (obj <- _readData self ;;
     data <- the_set obj ;;
     ret (foldl (∖) data others)).

Definition symmetricDifference (self : ref) (other : gset T) : M (gset T) :=
  locked self
    (obj <- _readData self ;;
     data <- the_set obj ;;
     ret (symmetric_difference data other)).

(** ** Operators *)

(** The right-hand operand of [==]: a [set], a [RememorySet], or an object
    of another type. *)
Inductive operand : Type :=
  | OSet (s : gset T)
  | ORememorySet (other : ref)
  | OOther.

(** [data == other] on the objects read. *)
Definition py_eq (data other : pyobj) : M bool :=
  a <- the_set data ;;
  b <- the_set other ;;
  ret (bool_decide (a = b)).

Definition __eq__ (self : ref) (other : operand) : M bool :=
  match other with
  | OOther => ret false
  | _ =>
      locked self
        (data <- _readData self ;;
         match other with
         | ORememorySet o =>
             locked o
               (otherData <- _readData o ;;
                py_eq data otherData)
         | OSet s => py_eq data (PySet s)
         | OOther => ret false
         end)
  end.




(** [self != other] is Python's default: the negation of [__eq__]. *)
Definition __ne__ (self : ref) (other : operand) : M bool :=
  b <- __eq__ self other ;;
  ret (negb b).

Definition __le__ (self : ref) (other : gset T) : M bool := isSubset self other.

Definition __lt__ (self : ref) (other : gset T) : M bool :=
  le <- __le__ self other ;;
  if le then __ne__ self (OSet other) else ret false.

Definition __ge__ (self : ref) (other : gset T) : M bool := isSuperset self other.

Definition __gt__ (self : ref) (other : gset T) : M bool :=
  ge <- __ge__ self other ;;
  if ge then __ne__ self (OSet other) else ret false.

Definition __or__ (self : ref) (other : gset T) : M (gset T) := union self [other].
Definition __and__ (self : ref) (other : gset T) : M (gset T) := intersection self [other].
Definition __sub__ (self : ref) (other : gset T) : M (gset T) := difference self [other].
Definition __xor__ (self : ref) (other : gset T) : M (gset T) := symmetricDifference self other.

(** [__repr__] formats the name and the object it reads, without the
    lock; the model returns the two parts. *)
Definition __repr__ (self : ref) : M (string * pyobj) :=
  h <- get_obj self ;;
  data <- _readData self ;;
  ret (_name h, data).

(** ** Teardown *)

Definition close (self : ref) : M unit :=
  h <- get_obj self ;;
  match _shm h with
  | None => ret tt
  | Some shm => set_shm self (Some (SharedMemory_close shm))
  end.

Definition unlink (self : ref) : M unit :=
  h <- get_obj self ;;
  match _shm h with
  | None => ret tt
  | Some shm => SharedMemory_unlink shm
  end.

(** ** Every public operation, as data *)

Inductive op : Type :=
  | Add (item : T) | Remove (item : T) | Discard (item : T) | Pop | Clear
  | Update (others : list (gset T))
  | IntersectionUpdate (others : list (gset T))
  | DifferenceUpdate (others : list (gset T))
  | SymmetricDifferenceUpdate (other : gset T)
  | Contains (item : T) | Len | Iter | Copy
  | IsDisjoint (other : gset T) | IsSubset (other : gset T) | IsSuperset (other : gset T)
  | Union (others : list (gset T)) | Intersection (others : list (gset T))
  | Difference (others : list (gset T)) | SymmetricDifference (other : gset T)
  | Eq (other : operand) | Ne (other : operand)
  | Le (other : gset T) | Lt (other : gset T) | Ge (other : gset T) | Gt (other : gset T)
  | Or (other : gset T) | And (other : gset T) | Sub (other : gset T) | Xor (other : gset T)
  | Repr | Close | Unlink.

Inductive value : Type :=
  | VNone
  | VBool (b : bool)
  | VInt (n : Z)
  | VItem (x : T)
  | VSet (s : gset T)
  | VList (l : list T)
  | VRepr (name : string) (data : pyobj).

Definition fmap_M {A B} (f : A -> B) (m : M A) : M B := a <- m ;; ret (f a).

Definition run (o : op) (self : ref) : M value :=
  let none := fmap_M (fun _ : unit => VNone) in
  match o with
  | Add x => none (add self x)
  | Remove x => none (remove self x)
  | Discard x => none (discard self x)
  | Pop => fmap_M VItem (pop self)
  | Clear => none (clear self)
  | Update l => none (update self l)
  | IntersectionUpdate l => none (intersectionUpdate self l)
  | DifferenceUpdate l => none (differenceUpdate self l)
  | SymmetricDifferenceUpdate s => none (symmetricDifferenceUpdate self s)
  | Contains x => fmap_M VBool (__contains__ self x)
  | Len => fmap_M VInt (__len__ self)
  | Iter => fmap_M VList (__iter__ self)
  | Copy => fmap_M VSet (copy self)
  | IsDisjoint s => fmap_M VBool (isDisjoint self s)
  | IsSubset s => fmap_M VBool (isSubset self s)
  | IsSuperset s => fmap_M VBool (isSuperset self s)
  | Union l => fmap_M VSet (union self l)
  | Intersection l => fmap_M VSet (intersection self l)
  | Difference l => fmap_M VSet (difference self l)
  | SymmetricDifference s => fmap_M VSet (symmetricDifference self s)
  | Eq o => fmap_M VBool (__eq__ self o)
  | Ne o => fmap_M VBool (__ne__ self o)
  | Le s => fmap_M VBool (__le__ self s)
  | Lt s => fmap_M VBool (__lt__ self s)
  | Ge s => fmap_M VBool (__ge__ self s)
  | Gt s => fmap_M VBool (__gt__ self s)
  | Or s => fmap_M VSet (__or__ self s)
  | And s => fmap_M VSet (__and__ self s)
  | Sub s => fmap_M VSet (__sub__ self s)
  | Xor s => fmap_M VSet (__xor__ self s)
  | Repr => fmap_M (fun p => VRepr p.1 p.2) (__repr__ self)
  | Close => none (close self)
  | Unlink => none (unlink self)
  end.

(** ** Predicates on worlds *)

(** What [_readData] makes of a segment's bytes. *)
Definition decode (buf : list byte) : outcome pyobj :=
  match rstrip buf with
  | [] => Return (PySet ∅)
  | raw =>
      match loads raw with
      | Loaded s => Return (PySet s)
      | LoadedOther => Return (PyOther raw)
      | RaisedException => Return (PySet ∅)
      | RaisedBaseException => Raise BaseException
      end
  end.

(** The segment is all-zero, or its payload decodes to a set. *)
Definition valid (buf : list byte) : Prop :=
  rstrip buf = [] \/ exists s, loads (rstrip buf) = Loaded s.

Definition seg_inv (w : world) : Prop :=
  forall seg buf, shm_mem w !! seg = Some buf -> valid buf.

(** A handle's [SharedMemory] object carries the handle's name, and while
    it is mapped its [size] is the size of the segment it maps. *)
Definition handle_ok (w : world) (h : RememorySet) : Prop :=
  forall shm, _shm h = Some shm ->
    shm_name shm = _name h /\ 0 <= shm_size shm /\
    forall seg, shm_buf shm = Some seg ->
      exists buf, shm_mem w !! seg = Some buf /\ shm_size shm = len buf.

Definition handles_ok (w : world) : Prop :=
  forall i h, objs w !! i = Some h -> handle_ok w h.

(** Every linked name maps to a segment. *)
Definition names_ok (w : world) : Prop :=
  forall name seg, shm_names w !! name = Some seg -> is_Some (shm_mem w !! seg).

Definition wf (w : world) : Prop := handles_ok w /\ names_ok w.

(** [self] is an open handle named [name], mapped to a segment, and [name]
    is linked in the namespace. *)
Definition live (w : world) (self : ref) (name : string) : Prop :=
  exists h shm seg buf,
    objs w !! self = Some h /\ _name h = name /\ _shm h = Some shm /\
    shm_name shm = name /\ shm_buf shm = Some seg /\
    shm_mem w !! seg = Some buf /\ shm_size shm = len buf /\
    is_Some (shm_names w !! name).

(** [self] is live and maps the segment that [name] is linked to now (it is
    not a stale handle on a segment that was re-created since). *)
Definition current (w : world) (self : ref) (name : string) : Prop :=
  exists h shm seg buf,
    objs w !! self = Some h /\ _name h = name /\ _shm h = Some shm /\
    shm_name shm = name /\ shm_buf shm = Some seg /\
    shm_mem w !! seg = Some buf /\ shm_size shm = len buf /\
    shm_names w !! name = Some seg.

(** The set a read through [self] returns. *)
Definition stored (w : world) (self : ref) (S : gset T) : Prop :=
  outcome_of (_readData self w) = Return (PySet S).

(** Two worlds with the same names and objects whose segments have the same
    sizes and decode alike. *)
Definition seg_sim (b b0 : list byte) : Prop :=
  len b = len b0 /\ decode b = decode b0.

Definition similar (w w0 : world) : Prop :=
  shm_names w = shm_names w0 /\ objs w = objs w0 /\
  Forall2 seg_sim (shm_mem w) (shm_mem w0).

(** [w] with segment [seg] holding [bs]. *)
Definition with_segment (w : world) (seg : nat) (bs : list byte) : world :=
  mkWorld (shm_names w) (<[seg := bs]> (shm_mem w)) (objs w).

(** [w] after [_writeData] re-created the segment of [self]: the name maps
    to a new segment of [newSize] bytes holding [bs], and [self._shm] is
    the new [SharedMemory] object. *)
Definition regrown (w : world) (self : ref) (name : string) (newSize : Z)
    (bs : list byte) : world :=
  mkWorld (<[name := length (shm_mem w)]> (shm_names w))
          (shm_mem w ++ [bs])
          (alter (fun h => mkSet (_name h) (_size h)
                             (Some (mkShm name newSize (Some (length (shm_mem w))))))
                 self (objs w)).

(** [w] after a constructor created the segment [name] of [size] bytes and
    stored its [SharedMemory] object in the new handle. *)
Definition created (w : world) (name : string) (size : Z) : world :=
  mkWorld (<[name := length (shm_mem w)]> (shm_names w))
          (shm_mem w ++ [zeros size])
          (objs w ++ [mkSet name size
                        (Some (mkShm name size (Some (length (shm_mem w)))))]).

(** [w] after a constructor attached its new handle to segment [seg]. *)
Definition attached (w : world) (name : string) (size : Z) (seg : nat) : world :=
  mkWorld (shm_names w) (shm_mem w)
          (objs w ++ [mkSet name size
                        (Some (mkShm name (len (default [] (shm_mem w !! seg)))
                                     (Some seg)))]).

(** The invariant of the worlds the class produces. *)
Definition inv (w : world) : Prop := wf w /\ seg_inv w.

(** A computation keeps the invariant, also when it raises. *)
Definition preserves {A} (m : M A) : Prop :=
  forall w, inv w -> inv (world_of (m w)).

(** A computation cannot tell similar worlds apart. *)
Definition respects {A} (m : M A) : Prop :=
  forall w w0, wf w -> similar w w0 ->
    outcome_of (m w) = outcome_of (m w0) /\
    trace_of (m w) = trace_of (m w0) /\
    wf (world_of (m w)) /\
    similar (world_of (m w)) (world_of (m w0)).

(** The worlds processes can bring about by constructing handles and
    calling their methods, one call at a time. *)
Inductive reachable : world -> Prop :=
  | reach_empty : reachable empty_world
  | reach_init w name size :
      reachable w -> reachable (world_of (__init__ name size w))
  | reach_run w o self :
      reachable w -> reachable (world_of (run o self w)).

End Rememory.

Arguments Return {T A} a.
Arguments Raise {T A} e.
Arguments LoadedOther {T _ _}.
Arguments RaisedException {T _ _}.
Arguments RaisedBaseException {T _ _}.

(** ** A concrete codec: pickle protocol 4 on [set[bool]]

    [pickle.dumps] writes [PROTO 4], a [FRAME] header when the rest has at
    least four bytes, then [EMPTY_SET], [MEMOIZE], the elements between
    [MARK] and [ADDITEMS] when there are any, and [STOP].  The order of the
    elements is the set's iteration order; the model takes [elements]. *)

Module BoolPickle.

Definition PROTO : byte := x80.
Definition FRAME : byte := x95.
Definition EMPTY_SET : byte := x8f.
Definition MEMOIZE : byte := x94.
Definition MARK : byte := x28.
Definition ADDITEMS : byte := x90.
Definition NEWTRUE : byte := x88.
Definition NEWFALSE : byte := x89.
Definition STOP : byte := x2e.

Definition byte_of_Z (z : Z) : byte := default x00 (Byte.of_N (Z.to_N z)).

(** [k] bytes of [n], least significant first. *)
Fixpoint little_endian (k : nat) (n : Z) : list byte :=
  match k with
  | O => []
  | S k' => byte_of_Z (n mod 256) :: little_endian k' (n / 256)
  end.

Definition save_bool (b : bool) : byte := if b then NEWTRUE else NEWFALSE.

Definition save_set (s : gset bool) : list byte :=
  [EMPTY_SET; MEMOIZE] ++
  match elements s with
  | [] => []
  | items => MARK :: map save_bool items ++ [ADDITEMS]
  end.

Definition framed (payload : list byte) : list byte :=
  if 4 <=? len payload
  then FRAME :: little_endian 8 (len payload) ++ payload
  else payload.

Definition dumps (s : gset bool) : list byte :=
  [PROTO; x04] ++ framed (save_set s ++ [STOP]).

Definition expect (b : byte) (bs : list byte) : option (list byte) :=
  match bs with
  | c :: rest => if Byte.eqb b c then Some rest else None
  | [] => None
  end.

Definition load_bool (b : byte) : option bool :=
  if Byte.eqb b NEWTRUE then Some true
  else if Byte.eqb b NEWFALSE then Some false
  else None.

(** The items after [MARK], up to [ADDITEMS]. *)
Fixpoint load_items (bs : list byte) (acc : gset bool) : option (gset bool * list byte) :=
  match bs with
  | [] => None
  | b :: rest =>
      if Byte.eqb b ADDITEMS then Some (acc, rest)
      else match load_bool b with
           | Some v => load_items rest ({[v]} ∪ acc)
           | None => None
           end
  end.

Definition load_set (bs : list byte) : option (gset bool) :=
  match expect EMPTY_SET bs with
  | None => None
  | Some bs1 =>
      match expect MEMOIZE bs1 with
      | None => None
      | Some bs2 =>
          match expect STOP bs2 with
          | Some _ => Some ∅
          | None =>
              match expect MARK bs2 with
              | None => None
              | Some bs3 =>
                  match load_items bs3 ∅ with
                  | Some (s, bs4) =>
                      match expect STOP bs4 with
                      | Some _ => Some s
                      | None => None
                      end
                  | None => None
                  end
              end
          end
      end
  end.

(** A [FRAME] header announces how many bytes follow; a shorter stream is
    an error. *)
Definition unframed (bs : list byte) : option (list byte) :=
  match expect FRAME bs with
  | None => Some bs
  | Some rest =>
      let n := Z.of_N (fold_right (fun b acc => (Byte.to_N b + 256 * acc)%N) 0%N (take 8 rest)) in
      let payload := drop 8 rest in
      if (len rest <? 8) || (len payload <? n) then None else Some payload
  end.

Definition load_stream (bs : list byte) : option (gset bool) :=
  match expect PROTO bs with
  | None => None
  | Some bs1 =>
      match expect x04 bs1 with
      | None => None
      | Some bs2 =>
          match unframed bs2 with
          | None => None
          | Some payload => load_set payload
          end
      end
  end.

Fixpoint bytes_eqb (a b : list byte) : bool :=
  match a, b with
  | [], [] => true
  | x :: a', y :: b' => Byte.eqb x y && bytes_eqb a' b'
  | _, _ => false
  end.

(** [b"csys\nexit\n(tR."]: a protocol-0 stream with [GLOBAL] [sys exit],
    an empty argument tuple and [REDUCE].  Unpickling it calls
    [sys.exit()], which raises [SystemExit]. *)
Definition exit_stream : list byte :=
  [x63; x73; x79; x73; x0a; x65; x78; x69; x74; x0a; x28; x74; x52; x2e].

(** [pickle.dumps(b)] for a [bool]: it unpickles to that [bool], which is
    not a set. *)
Definition bool_stream (b : bool) : list byte := [PROTO; x04; save_bool b; STOP].

(** [pickle.loads] on the streams above; on any other stream the model
    has it raise [UnpicklingError]. *)
Definition loads (bs : list byte) : unpickled (T:=bool) :=
  match load_stream bs with
  | Some s => Loaded s
  | None =>
      if bytes_eqb bs exit_stream then RaisedBaseException
      else if bytes_eqb bs (bool_stream true) || bytes_eqb bs (bool_stream false)
      then LoadedOther
      else RaisedException
  end.

(** [set.pop()] on a set of booleans. *)
Definition pick (s : gset bool) : bool := bool_decide (true ∈ s).

(** The world after [RememorySet("s", 64)] in a fresh system. *)
Definition s0 : world := world_of (__init__ dumps "s" 64 empty_world).

(** The world after [RememorySet("s", 8)] in a fresh system. *)
Definition s8 : world := world_of (__init__ dumps "s" 8 empty_world).

(** [s0] after [add(True)] through its handle. *)
Definition s1 : world := world_of (run dumps loads pick (Add true) 0%nat s0).

(** [s0] with a corrupt payload in the segment. *)
Definition garbled : world := with_segment s0 0%nat (x01 :: zeros 63).




(** Another process running [RememorySet("x", 16)]. *)
Definition winner (w : world) : world := world_of (__init__ dumps "x" 16 w).

(** [s1] after a second [RememorySet("s", 64)]: handles 0 and 1 share the
    segment. *)
Definition pair : world := world_of (__init__ dumps "s" 64 s1).

(** [s8] after a second [RememorySet("s", 8)]. *)
Definition pair8 : world := world_of (__init__ dumps "s" 8 s8).


End BoolPickle.

(** ** Reading a trace *)





(** ** Processes contending for named locks *)

Module NamedMutex.







End NamedMutex.

(** ** Classifying operations, capacities and lock discipline *)

Section Discipline.

Context {T : Type} `{Countable T}.



(** [self._shm.size], when the handle has a [SharedMemory] object. *)
Definition capacity (w : world) (self : ref) : option Z :=
  match objs w !! self with
  | Some h =>
      match _shm h with
      | Some shm => Some (shm_size shm)
      | None => None
      end
  | None => None
  end.

(** Runs a trace against the stack of held locks: a lock is released only
    when it is the last one taken, and a segment is read only under the
    lock of its name.  The result is the stack the trace leaves. *)
Fixpoint lock_check (held : list string) (t : list event) : option (list string) :=
  match t with
  | [] => Some held
  | Acquire n :: rest => lock_check (n :: held) rest
  | Release n :: rest =>
      match held with
      | m :: held' => if String.eqb n m then lock_check held' rest else None
      | [] => None
      end
  | Snapshot n :: rest =>
      if existsb (String.eqb n) held then lock_check held rest else None
  end.

(** [f] gives the name of every object of the heap. *)
Definition names_as (f : nat -> option string) (w : world) : Prop :=
  forall i h, objs w !! i = Some h -> f i = Some (_name h).

(** From a well-formed world whose objects are named by [f], the
    computation keeps both, and its trace passes [lock_check] from [held]
    and leaves [held]. *)
Definition disciplined {A} (f : nat -> option string) (held : list string)
    (m : M (T:=T) A) : Prop :=
  forall w, wf w -> names_as f w ->
    wf (world_of (m w)) /\ names_as f (world_of (m w)) /\
    lock_check held (trace_of (m w)) = Some held.


(** The computation never makes the capacity of handle [r] smaller. *)
Definition never_shrinks {A} (r : ref) (m : M (T:=T) A) : Prop :=
  forall w, wf w ->
    wf (world_of (m w)) /\
    forall c, capacity w r = Some c ->
      exists c', capacity (world_of (m w)) r = Some c' /\ c <= c'.




End Discipline.

(** * Properties *)

(** ** Bytes and padding *)

Lemma is_zero_true b : is_zero b = true <-> b = x00.
Proof.
  unfold is_zero. split.
  - apply Byte.byte_dec_bl.
  - intros ->. reflexivity.
Qed.

Lemma rstrip_cons b l :
  rstrip (b :: l) =
  match rstrip l with
  | [] => if is_zero b then [] else [b]
  | _ :: _ => b :: rstrip l
  end.
Proof. reflexivity. Qed.

Lemma rstrip_zeros n : rstrip (zeros n) = [].
Proof.
  unfold zeros. induction (Z.to_nat n) as [|k IH]; [reflexivity|].
  simpl replicate. rewrite rstrip_cons, IH. reflexivity.
Qed.

Lemma rstrip_app_zeros e n : rstrip (e ++ zeros n) = rstrip e.
Proof.
  induction e as [|b e IH]; simpl app.
  - apply rstrip_zeros.
  - rewrite !rstrip_cons, IH. reflexivity.
Qed.

Lemma rstrip_ends_nonzero e b : last e = Some b -> b <> x00 -> rstrip e = e.
Proof.
  intros Hl Hb. induction e as [|a e IH]; [reflexivity|].
  rewrite rstrip_cons. destruct e as [|c e].
  - simpl in *. injection Hl as ->.
    destruct (is_zero b) eqn:E; [|reflexivity].
    apply is_zero_true in E. contradiction.
  - rewrite IH by exact Hl. reflexivity.
Qed.

Lemma len_app {A} (a b : list A) : len (a ++ b) = len a + len b.
Proof. unfold len. rewrite length_app. lia. Qed.

Lemma len_zeros n : len (zeros n) = Z.max 0 n.
Proof. unfold len, zeros. rewrite length_replicate. lia. Qed.

Lemma len_nonneg {A} (l : list A) : 0 <= len l.
Proof. unfold len. lia. Qed.

(** The two slice assignments of [_writeData] leave the encoding followed
    by zeros, whatever the segment held. *)
Lemma take_written (enc old : list byte) :
  take (Z.to_nat (len enc)) (enc ++ drop (Z.to_nat (len enc)) old) = enc.
Proof.
  unfold len. rewrite Nat2Z.id. rewrite take_app_length. reflexivity.
Qed.

(** ** The read and write protocols *)

Section Protocol.

Context {T : Type} `{Countable T}.
Variable dumps : gset T -> list byte.
Variable loads : list byte -> unpickled (T:=T).
Variable pick : gset T -> T.

(** What the class needs from pickle: a set unpickles to itself, and a
    pickle stream ends with a non-zero byte (its [STOP] opcode), so that
    stripping the padding cannot cut into it. *)
Hypothesis loads_dumps : forall v, loads (dumps v) = Loaded v.
Hypothesis dumps_end : forall v, exists b, last (dumps v) = Some b /\ b <> x00.

(** [set.pop()] returns an element of the set. *)
Hypothesis pick_elem : forall s, s <> ∅ -> pick s ∈ s.

Notation "x <- m ;; k" := (bind m (fun x => k))
  (at level 100, m at next level, right associativity).
Notation "m ;;; k" := (bind m (fun _ => k))
  (at level 100, right associativity).
Local Abbreviation M := (@M T).

Lemma rstrip_dumps v n : rstrip (dumps v ++ zeros n) = dumps v.
Proof.
  rewrite rstrip_app_zeros.
  destruct (dumps_end v) as (b & Hl & Hb).
  eapply rstrip_ends_nonzero; eauto.
Qed.

Lemma dumps_nonempty v : dumps v <> [].
Proof.
  destruct (dumps_end v) as (b & Hl & _). intros E. rewrite E in Hl. discriminate.
Qed.

Lemma decode_written v n : decode loads (dumps v ++ zeros n) = Return (PySet v).
Proof.
  unfold decode. rewrite rstrip_dumps.
  destruct (dumps v) eqn:E.
  - exfalso. eapply dumps_nonempty; eauto.
  - rewrite <- E, loads_dumps. reflexivity.
Qed.

Lemma valid_written v n : valid loads (dumps v ++ zeros n).
Proof. right. rewrite rstrip_dumps, loads_dumps. eauto. Qed.


Lemma read_run w self h shm seg buf :
  objs w !! self = Some h -> _shm h = Some shm ->
  shm_buf shm = Some seg -> shm_mem w !! seg = Some buf ->
  _readData loads self w = (decode loads buf, w, [Snapshot (shm_name shm)]).
Proof.
  intros Ho Hs Hb Hm.
  unfold _readData, bind, get_obj. rewrite Ho, Hs.
  unfold buf_bytes. rewrite Hb, Hm. simpl.
  unfold decode. destruct (rstrip buf); [reflexivity|].
  destruct (loads _); reflexivity.
Qed.

Lemma the_set_run w (S : gset T) : the_set (PySet S) w = (Return S, w, []).
Proof. reflexivity. Qed.

(** Running a [bind] one step at a time. *)
Lemma bind_run {A B} (m : M A) (k : A -> M B) w a w1 t1 r w2 t2 t :
  m w = (Return a, w1, t1) -> k a w1 = (r, w2, t2) -> t = t1 ++ t2 ->
  bind m k w = (r, w2, t).
Proof. intros Hm Hk ->. unfold bind. rewrite Hm, Hk. reflexivity. Qed.

Lemma bind_eq {A B} (m : M A) (k : A -> M B) w a w1 t1 :
  m w = (Return a, w1, t1) ->
  bind m k w = (let '(r, w2, t2) := k a w1 in (r, w2, t1 ++ t2)).
Proof. intros Hm. unfold bind. rewrite Hm. reflexivity. Qed.

Lemma bind_raise {A B} (m : M A) (k : A -> M B) w e w1 t1 :
  m w = (Raise e, w1, t1) -> bind m k w = (Raise e, w1, t1).
Proof. intros Hm. unfold bind. rewrite Hm. reflexivity. Qed.

Lemma get_obj_run w self h :
  objs w !! self = Some h -> get_obj (T:=T) self w = (Return h, w, []).
Proof. intros Ho. unfold get_obj. rewrite Ho. reflexivity. Qed.

Lemma the_shm_run w self h shm :
  objs w !! self = Some h -> _shm h = Some shm ->
  the_shm (T:=T) self w = (Return shm, w, []).
Proof.
  intros Ho Hs. unfold the_shm.
  eapply bind_run; [apply get_obj_run; eauto| |reflexivity].
  rewrite Hs. reflexivity.
Qed.

Lemma buf_assign_to_run w shm seg old n data :
  shm_buf shm = Some seg -> shm_mem w !! seg = Some old ->
  len data = Z.min n (len old) ->
  buf_assign_to (T:=T) shm n data w =
    (Return tt, with_segment w seg (data ++ drop (Z.to_nat n) old), []).
Proof.
  intros Hb Hm Hl. unfold buf_assign_to. rewrite Hb, Hm. simpl default.
  rewrite (proj2 (Z.eqb_eq _ _) Hl). reflexivity.
Qed.

Lemma buf_assign_from_run w shm seg old n data :
  shm_buf shm = Some seg -> shm_mem w !! seg = Some old ->
  len data = len old - Z.min n (len old) ->
  buf_assign_from (T:=T) shm n data w =
    (Return tt, with_segment w seg (take (Z.to_nat n) old ++ data), []).
Proof.
  intros Hb Hm Hl. unfold buf_assign_from. rewrite Hb, Hm. simpl default.
  rewrite (proj2 (Z.eqb_eq _ _) Hl). reflexivity.
Qed.

Lemma with_segment_twice w seg a b :
  with_segment (with_segment w seg a) seg b = with_segment w seg b.
Proof. unfold with_segment. simpl. rewrite list_insert_insert_eq. reflexivity. Qed.

Lemma len_drop_len (enc old : list byte) :
  len enc <= len old -> len (drop (Z.to_nat (len enc)) old) = len old - len enc.
Proof. unfold len. rewrite length_drop, Nat2Z.id. lia. Qed.

(** The two assignments at the end of [_writeData], on a mapped segment
    that is large enough. *)
Lemma assign_both_run w self h shm seg old (enc : list byte) :
  objs w !! self = Some h -> _shm h = Some shm ->
  shm_buf shm = Some seg -> shm_mem w !! seg = Some old ->
  shm_size shm = len old -> len enc <= len old ->
  (shm1 <- the_shm (T:=T) self ;;
   buf_assign_to shm1 (len enc) enc ;;;
   shm2 <- the_shm self ;;
   buf_assign_from shm2 (len enc) (zeros (shm_size shm2 - len enc))) w =
  (Return tt, with_segment w seg (enc ++ zeros (len old - len enc)), []).
Proof.
  intros Ho Hs Hb Hm Hsz Hfit.
  assert (Hlt : (seg < length (shm_mem w))%nat) by (eapply lookup_lt_Some; eauto).
  pose proof (len_nonneg enc) as Hn.
  eapply bind_run; [eapply the_shm_run; eauto| |reflexivity].
  eapply bind_run; [eapply buf_assign_to_run; eauto; lia| |reflexivity].
  eapply bind_run; [eapply the_shm_run; eauto| |reflexivity].
  erewrite buf_assign_from_run; eauto.
  - rewrite with_segment_twice, take_written, Hsz. reflexivity.
  - simpl. apply list_lookup_insert_eq. exact Hlt.
  - rewrite len_zeros, len_app, len_drop_len by exact Hfit. lia.
Qed.

Lemma write_fits_run w self h shm seg buf v :
  objs w !! self = Some h -> _shm h = Some shm ->
  shm_buf shm = Some seg -> shm_mem w !! seg = Some buf ->
  shm_size shm = len buf ->
  len (dumps v) <= len buf ->
  _writeData dumps self v w =
    (Return tt, with_segment w seg (dumps v ++ zeros (len buf - len (dumps v))), []).
Proof.
  intros Ho Hs Hb Hm Hsz Hfit.
  unfold _writeData.
  eapply bind_run; [apply get_obj_run; eauto| |reflexivity].
  rewrite Hs.
  destruct (len (dumps v) >? shm_size shm) eqn:E; [lia|].
  eapply bind_run; [reflexivity| |reflexivity].
  eapply assign_both_run; eauto.
Qed.

Lemma write_grow_run w self h shm v :
  objs w !! self = Some h -> _shm h = Some shm ->
  shm_name shm = _name h -> 0 <= shm_size shm ->
  is_Some (shm_names w !! _name h) ->
  shm_size shm < len (dumps v) ->
  let newSize := Z.max (len (dumps v)) (shm_size shm * 2) in
  _writeData dumps self v w =
    (Return tt,
     regrown w self (_name h) newSize (dumps v ++ zeros (newSize - len (dumps v))),
     []).
Proof.
  intros Ho Hs Hn Hz [old Hl] Hbig newSize.
  unfold _writeData.
  eapply bind_run; [apply get_obj_run; eauto| |reflexivity].
  rewrite Hs.
  destruct (len (dumps v) >? shm_size shm) eqn:E; [|lia].
  fold newSize.
  set (seg' := length (shm_mem w)).
  set (new := mkShm (_name h) newSize (Some seg')).
  set (w4 := mkWorld (<[_name h := seg']> (shm_names w))
                     (shm_mem w ++ [zeros newSize])
                     (alter (fun h0 => mkSet (_name h0) (_size h0) (Some new)) self (objs w))).
  assert (Hgrow :
    (set_shm (T:=T) self (Some (SharedMemory_close shm)) ;;;
     SharedMemory_unlink shm ;;;
     new <- SharedMemory_create (_name h) newSize ;;
     set_shm self (Some new)) w = (Return tt, w4, [])).
  { erewrite bind_eq by reflexivity.
    erewrite bind_eq.
    2:{ unfold SharedMemory_unlink. cbn [shm_names shm_mem objs set_shm].
        rewrite Hn, Hl. reflexivity. }
    erewrite bind_eq.
    2:{ unfold SharedMemory_create. cbn [shm_names shm_mem objs].
        destruct (newSize <? 0) eqn:E1; [lia|].
        destruct (newSize =? 0) eqn:E2; [lia|].
        rewrite lookup_delete_eq. reflexivity. }
    unfold set_shm. cbn [shm_names shm_mem objs].
    rewrite insert_delete_eq, list_alter_alter_eq. reflexivity. }
  eapply bind_run; [exact Hgrow| |reflexivity].
  erewrite assign_both_run with (shm := new) (seg := seg') (old := zeros newSize).
  - unfold regrown, with_segment, w4. cbn [shm_names shm_mem objs].
    f_equal. f_equal. f_equal.
    + subst seg'. rewrite <- (Nat.add_0_r (length (shm_mem w))).
      rewrite insert_app_r. simpl. rewrite len_zeros.
      replace (Z.max 0 newSize) with newSize by lia. reflexivity.
  - unfold w4. cbn [objs]. rewrite list_lookup_alter_eq, Ho. reflexivity.
  - reflexivity.
  - reflexivity.
  - unfold w4. cbn [shm_mem]. subst seg'. apply list_lookup_middle. reflexivity.
  - cbn [shm_size new]. rewrite len_zeros. lia.
  - rewrite len_zeros. lia.
Qed.

(** ** Closed forms of the two protocols *)

Lemma readData_cases w self :
  _readData loads self w =
  match objs w !! self with
  | None => (Raise DanglingReference, w, [])
  | Some h =>
      match _shm h with
      | None => (Return (PySet ∅), w, [])
      | Some shm =>
          match shm_buf shm with
          | None => (Raise TypeError, w, [])
          | Some seg =>
              (decode loads (default [] (shm_mem w !! seg)), w,
               [Snapshot (shm_name shm)])
          end
      end
  end.
Proof.
  unfold _readData, bind, get_obj.
  destruct (objs w !! self) as [h|]; [|reflexivity].
  destruct (_shm h) as [shm|]; [|reflexivity].
  unfold buf_bytes. destruct (shm_buf shm) as [seg|]; [|reflexivity].
  unfold decode. destruct (rstrip _); [reflexivity|].
  destruct (loads _); reflexivity.
Qed.

Lemma readData_world w self : world_of (_readData loads self w) = w.
Proof.
  rewrite readData_cases.
  repeat match goal with |- context [match ?x with _ => _ end] => destruct x end;
    reflexivity.
Qed.

Lemma writeData_cases w self v :
  handles_ok w ->
  _writeData dumps self v w =
  match objs w !! self with
  | None => (Raise DanglingReference, w, [])
  | Some h =>
      match _shm h with
      | None => (Return tt, w, [])
      | Some shm =>
          if len (dumps v) >? shm_size shm then
            let newSize := Z.max (len (dumps v)) (shm_size shm * 2) in
            match shm_names w !! _name h with
            | None =>
                (Raise FileNotFoundError,
                 world_of (set_shm (T:=T) self (Some (SharedMemory_close shm)) w), [])
            | Some _ =>
                (Return tt,
                 regrown w self (_name h) newSize
                         (dumps v ++ zeros (newSize - len (dumps v))), [])
            end
          else
            match shm_buf shm with
            | None => (Raise TypeError, w, [])
            | Some seg =>
                (Return tt,
                 with_segment w seg (dumps v ++ zeros (shm_size shm - len (dumps v))), [])
            end
      end
  end.
Proof.
  intros Hwf.
  destruct (objs w !! self) as [h|] eqn:Ho.
  2:{ unfold _writeData. apply bind_raise. unfold get_obj. rewrite Ho. reflexivity. }
  destruct (_shm h) as [shm|] eqn:Hs.
  2:{ unfold _writeData. erewrite bind_eq by (apply get_obj_run; eauto).
      rewrite Hs. reflexivity. }
  destruct (Hwf _ _ Ho _ Hs) as (Hn & Hz & Hmap).
  destruct (len (dumps v) >? shm_size shm) eqn:E.
  - destruct (shm_names w !! _name h) as [old|] eqn:Hl.
    + apply write_grow_run; eauto. lia.
    + unfold _writeData. erewrite bind_eq by (apply get_obj_run; eauto).
      rewrite Hs, E.
      unfold bind at 1. unfold bind at 1. unfold bind at 1.
      unfold SharedMemory_unlink. cbn [set_shm shm_names]. rewrite Hn, Hl.
      reflexivity.
  - destruct (shm_buf shm) as [seg|] eqn:Hb.
    + destruct (Hmap _ eq_refl) as (buf & Hm & Hsz).
      rewrite Hsz. apply write_fits_run with (h := h) (shm := shm); eauto. lia.
    + unfold _writeData. erewrite bind_eq by (apply get_obj_run; eauto).
      rewrite Hs, E.
      erewrite bind_eq by reflexivity.
      erewrite bind_eq by (eapply the_shm_run; eauto).
      unfold buf_assign_to. rewrite Hb. reflexivity.
Qed.

(** ** The invariant under the world updates *)

Ltac split_inv := split; [split|].

Lemma handles_ok_with_segment w seg bs old :
  handles_ok w -> shm_mem w !! seg = Some old -> len bs = len old ->
  handles_ok (with_segment w seg bs).
Proof.
  intros Hwf Hm Hl i h Ho shm Hs.
  destruct (Hwf i h Ho shm Hs) as (Hn & Hz & Hmap).
  split; [exact Hn|]. split; [exact Hz|].
  intros seg0 Hb. destruct (Hmap _ Hb) as (buf & Hm0 & Hsz).
  simpl. destruct (decide (seg = seg0)) as [->|Hne].
  - exists bs. split.
    + apply list_lookup_insert_eq. eapply lookup_lt_Some; eauto.
    + congruence.
  - exists buf. rewrite list_lookup_insert_ne by exact Hne. eauto.
Qed.

Lemma seg_inv_with_segment w seg bs :
  seg_inv loads w -> valid loads bs -> seg_inv loads (with_segment w seg bs).
Proof.
  intros Hi Hv seg0 buf. simpl. intros Hl.
  apply list_lookup_insert_Some in Hl as [(-> & -> & _)|(_ & Hl)]; eauto.
Qed.

Lemma handles_ok_regrown w self h newSize bs :
  handles_ok w -> objs w !! self = Some h -> 0 <= newSize -> len bs = newSize ->
  handles_ok (regrown w self (_name h) newSize bs).
Proof.
  intros Hwf Ho Hz Hl i h' Ho' shm Hs. simpl in Ho'.
  destruct (decide (self = i)) as [->|Hne].
  - rewrite list_lookup_alter_eq, Ho in Ho'. injection Ho' as <-.
    simpl in Hs. injection Hs as <-. simpl.
    split; [reflexivity|]. split; [exact Hz|].
    intros seg Hb. injection Hb as <-.
    exists bs. split; [|congruence].
    apply list_lookup_middle. reflexivity.
  - rewrite list_lookup_alter_ne in Ho' by exact Hne.
    destruct (Hwf i h' Ho' shm Hs) as (Hn & Hz' & Hmap).
    split; [exact Hn|]. split; [exact Hz'|].
    intros seg Hb. destruct (Hmap _ Hb) as (buf & Hm & Hsz).
    exists buf. split; [|exact Hsz]. simpl.
    rewrite lookup_app_l by (eapply lookup_lt_Some; eauto). exact Hm.
Qed.

Lemma seg_inv_regrown w self name newSize bs :
  seg_inv loads w -> valid loads bs -> seg_inv loads (regrown w self name newSize bs).
Proof.
  intros Hi Hv seg buf. simpl. intros Hl.
  apply lookup_app_Some in Hl as [Hl|(_ & Hl)]; [eauto|].
  apply list_lookup_singleton_Some in Hl as (_ & <-). exact Hv.
Qed.

Lemma handles_ok_closed w self h shm :
  handles_ok w -> objs w !! self = Some h -> _shm h = Some shm ->
  handles_ok (world_of (set_shm (T:=T) self (Some (SharedMemory_close shm)) w)).
Proof.
  intros Hwf Ho Hs i h' Ho' shm' Hs'. simpl in Ho'.
  destruct (decide (self = i)) as [->|Hne].
  - rewrite list_lookup_alter_eq, Ho in Ho'. injection Ho' as <-.
    simpl in Hs'. injection Hs' as <-. simpl.
    destruct (Hwf i h Ho shm Hs) as (Hn & Hz & _).
    split; [exact Hn|]. split; [exact Hz|]. discriminate.
  - rewrite list_lookup_alter_ne in Ho' by exact Hne.
    exact (Hwf i h' Ho' shm' Hs').
Qed.

Lemma names_ok_with_segment w seg bs :
  names_ok w -> names_ok (with_segment w seg bs).
Proof.
  intros Hn name seg0 Hl. simpl in *.
  apply lookup_lt_is_Some. rewrite length_insert.
  apply lookup_lt_is_Some. eauto.
Qed.

Lemma names_ok_regrown w self name newSize bs :
  names_ok w -> names_ok (regrown w self name newSize bs).
Proof.
  intros Hn name0 seg0. simpl. intros Hl.
  apply lookup_lt_is_Some. rewrite length_app. simpl.
  apply lookup_insert_Some in Hl as [(_ & <-)|(_ & Hl)]; [lia|].
  apply Hn, lookup_lt_is_Some in Hl. lia.
Qed.

Lemma inv_writeData self v : preserves loads (_writeData dumps self v).
Proof.
  intros w [[Hwf Hnm] Hi]. rewrite writeData_cases by exact Hwf.
  destruct (objs w !! self) as [h|] eqn:Ho; [|split_inv; assumption].
  destruct (_shm h) as [shm|] eqn:Hs; [|split_inv; assumption].
  destruct (Hwf _ _ Ho _ Hs) as (Hn & Hz & Hmap).
  destruct (len (dumps v) >? shm_size shm) eqn:E.
  - cbv zeta. destruct (shm_names w !! _name h).
    + unfold world_of. cbn [fst snd]. split_inv.
      * apply handles_ok_regrown; eauto; [lia|]. rewrite len_app, len_zeros. lia.
      * apply names_ok_regrown. exact Hnm.
      * apply seg_inv_regrown; [exact Hi|apply valid_written].
    + unfold world_of at 1. cbn [fst snd]. split_inv.
      * eapply handles_ok_closed; eauto.
      * exact Hnm.
      * exact Hi.
  - destruct (shm_buf shm) as [seg|] eqn:Hb; [|split_inv; assumption].
    destruct (Hmap _ eq_refl) as (buf & Hm & Hsz).
    unfold world_of. cbn [fst snd]. split_inv.
    + eapply handles_ok_with_segment; eauto. rewrite len_app, len_zeros.
      pose proof (len_nonneg (dumps v)). lia.
    + apply names_ok_with_segment. exact Hnm.
    + apply seg_inv_with_segment; [exact Hi|apply valid_written].
Qed.

(** ** Every operation keeps the invariant *)

Lemma preserves_ret {A} (a : A) : preserves loads (ret (T:=T) a).
Proof. intros w Hw. exact Hw. Qed.

Lemma preserves_raise {A} e : preserves loads (raise (T:=T) (A:=A) e).
Proof. intros w Hw. exact Hw. Qed.

Lemma preserves_bind {A B} (m : M A) (k : A -> M B) :
  preserves loads m -> (forall a, preserves loads (k a)) ->
  preserves loads (bind m k).
Proof.
  intros Hm Hk w Hw. specialize (Hm w Hw). unfold bind.
  destruct (m w) as [[[a|e] w1] t1]; [|exact Hm].
  specialize (Hk a w1 Hm).
  destruct (k a w1) as [[r w2] t2]. exact Hk.
Qed.

Lemma preserves_with_lock {A} name (body : M A) :
  preserves loads body -> preserves loads (with_lock name body).
Proof.
  intros Hb w Hw. specialize (Hb w Hw). unfold with_lock.
  destruct (body w) as [[r w1] t]. exact Hb.
Qed.

Lemma preserves_get_obj self : preserves loads (get_obj (T:=T) self).
Proof. intros w Hw. unfold get_obj. destruct (objs w !! self); exact Hw. Qed.

Lemma preserves_locked {A} self (body : M A) :
  preserves loads body -> preserves loads (locked self body).
Proof.
  intros Hb. apply preserves_bind; [apply preserves_get_obj|].
  intros h. apply preserves_with_lock. exact Hb.
Qed.

Lemma preserves_readData self : preserves loads (_readData loads self).
Proof. intros w Hw. rewrite readData_world. exact Hw. Qed.

Lemma preserves_the_set obj : preserves loads (the_set obj).
Proof. destruct obj; [apply preserves_ret|apply preserves_raise]. Qed.

Lemma preserves_fmap {A B} (f : A -> B) (m : M A) :
  preserves loads m -> preserves loads (fmap_M f m).
Proof.
  intros Hm. apply preserves_bind; [exact Hm|]. intros a. apply preserves_ret.
Qed.

Lemma preserves_close self : preserves loads (close (T:=T) self).
Proof.
  intros w [[Hh Hn] Hi]. unfold close, bind, get_obj.
  destruct (objs w !! self) as [h|] eqn:Ho; [|split_inv; assumption].
  destruct (_shm h) as [shm|] eqn:Hs; [|split_inv; assumption].
  split_inv; [|exact Hn|exact Hi].
  eapply handles_ok_closed; eauto.
Qed.

Lemma preserves_unlink self : preserves loads (unlink (T:=T) self).
Proof.
  intros w [[Hh Hn] Hi]. unfold unlink, bind, get_obj.
  destruct (objs w !! self) as [h|] eqn:Ho; [|split_inv; assumption].
  destruct (_shm h) as [shm|] eqn:Hs; [|split_inv; assumption].
  unfold SharedMemory_unlink.
  destruct (shm_names w !! shm_name shm); [|split_inv; assumption].
  split_inv; [exact Hh| |exact Hi].
  intros name seg. simpl. intros Hl.
  apply lookup_delete_Some in Hl as [_ Hl]. eauto.
Qed.

Ltac preserve :=
  repeat first
    [ apply preserves_ret
    | apply preserves_raise
    | apply preserves_readData
    | apply preserves_the_set
    | apply inv_writeData
    | apply preserves_get_obj
    | apply preserves_close
    | apply preserves_unlink
    | apply preserves_locked
    | apply preserves_fmap
    | apply preserves_bind; [|intros ?]
    | match goal with
      | |- preserves _ (if ?c then _ else _) => destruct c
      | |- preserves _ (match ?o with OSet _ => _ | _ => _ end) => destruct o
      end ].

Lemma preserves_run o self : preserves loads (run dumps loads pick o self).
Proof.
  destruct o; unfold run;
    unfold add, remove, discard, pop, clear, update, intersectionUpdate,
      differenceUpdate, symmetricDifferenceUpdate, __contains__, __len__,
      __iter__, copy, isDisjoint, __lt__, __gt__, __le__, __ge__, isSubset,
      isSuperset, __or__, __and__, __sub__, __xor__, union, intersection,
      difference, symmetricDifference, __ne__, __eq__, py_eq, __repr__;
    preserve.
Qed.

(** ** The constructor *)

Lemma alter_snoc {A} (f : A -> A) (l : list A) x :
  alter f (length l) (l ++ [x]) = l ++ [f x].
Proof.
  rewrite <- (Nat.add_0_r (length l)) at 1. rewrite alter_app_r. reflexivity.
Qed.

Lemma init_attach_run w name size seg :
  shm_names w !! name = Some seg ->
  __init__ dumps name size w = (Return (length (objs w)), attached w name size seg, []).
Proof.
  intros Hl. unfold __init__, init_racing, bind at 1, try_except_FileNotFoundError.
  unfold bind, SharedMemory_attach, set_shm. cbn [shm_names shm_mem objs].
  rewrite Hl. cbn [shm_names shm_mem objs].
  rewrite alter_snoc. reflexivity.
Qed.

Lemma init_size_run w name size :
  shm_names w !! name = None -> size <= 0 ->
  __init__ dumps name size w =
    (Raise ValueError,
     mkWorld (shm_names w) (shm_mem w) (objs w ++ [mkSet name size None]), []).
Proof.
  intros Hl Hs. unfold __init__, init_racing, bind at 1, try_except_FileNotFoundError.
  unfold bind at 1, SharedMemory_attach. cbn [shm_names shm_mem objs].
  rewrite Hl. unfold bind, SharedMemory_create, id. cbn [shm_names shm_mem objs].
  destruct (size <? 0) eqn:E1; [reflexivity|].
  destruct (size =? 0) eqn:E2; [reflexivity|lia].
Qed.

Lemma init_create_run w name size :
  shm_names w !! name = None -> 0 < size ->
  __init__ dumps name size w =
    (let '(r, w', t) := _writeData dumps (length (objs w)) ∅ (created w name size) in
     (match r with Return _ => Return (length (objs w)) | Raise e => Raise e end, w', t)).
Proof.
  intros Hl Hs. unfold __init__, init_racing, bind at 1, try_except_FileNotFoundError.
  unfold bind at 1, SharedMemory_attach. cbn [shm_names shm_mem objs].
  rewrite Hl.
  unfold bind at 1. unfold bind at 1. unfold id.
  unfold SharedMemory_create. cbn [shm_names shm_mem objs].
  destruct (size <? 0) eqn:E1; [lia|].
  destruct (size =? 0) eqn:E2; [lia|].
  rewrite Hl. unfold bind at 1, set_shm. cbn [shm_names shm_mem objs].
  rewrite alter_snoc. cbn [_name _size]. fold (created w name size).
  destruct (_writeData dumps (length (objs w)) ∅ (created w name size))
    as [[[[]|e] w'] t]; simpl; rewrite ?app_nil_r; reflexivity.
Qed.

Lemma inv_created w name size :
  inv loads w -> 0 < size -> inv loads (created w name size).
Proof.
  intros [[Hh Hn] Hi] Hs. split_inv.
  - intros i h Ho shm Hshm. simpl in Ho.
    apply lookup_app_Some in Ho as [Ho|(_ & Ho)].
    + destruct (Hh i h Ho shm Hshm) as (Hnm & Hz & Hmap).
      split; [exact Hnm|]. split; [exact Hz|].
      intros seg Hb. destruct (Hmap _ Hb) as (buf & Hm & Hsz).
      exists buf. split; [|exact Hsz]. simpl.
      rewrite lookup_app_l by (eapply lookup_lt_Some; eauto). exact Hm.
    + apply list_lookup_singleton_Some in Ho as (_ & <-).
      simpl in Hshm. injection Hshm as <-. simpl.
      split; [reflexivity|]. split; [lia|].
      intros seg Hb. injection Hb as <-.
      exists (zeros size). split; [apply list_lookup_middle; reflexivity|].
      rewrite len_zeros. lia.
  - intros name0 seg0. simpl. intros Hl.
    apply lookup_lt_is_Some. rewrite length_app. simpl.
    apply lookup_insert_Some in Hl as [(_ & <-)|(_ & Hl)]; [lia|].
    apply Hn, lookup_lt_is_Some in Hl. lia.
  - intros seg buf. simpl. intros Hl.
    apply lookup_app_Some in Hl as [Hl|(_ & Hl)]; [eauto|].
    apply list_lookup_singleton_Some in Hl as (_ & <-).
    left. apply rstrip_zeros.
Qed.

Lemma inv_new_object w h :
  inv loads w ->
  (forall shm, _shm h = Some shm ->
     shm_name shm = _name h /\ 0 <= shm_size shm /\
     forall seg, shm_buf shm = Some seg ->
       exists buf, shm_mem w !! seg = Some buf /\ shm_size shm = len buf) ->
  inv loads (mkWorld (shm_names w) (shm_mem w) (objs w ++ [h])).
Proof.
  intros [[Hh Hn] Hi] Hnew. split_inv; [|exact Hn|exact Hi].
  intros i h' Ho. simpl in Ho.
  apply lookup_app_Some in Ho as [Ho|(_ & Ho)].
  - exact (Hh i h' Ho).
  - apply list_lookup_singleton_Some in Ho as (_ & <-). exact Hnew.
Qed.

Lemma preserves_init name size : preserves loads (__init__ dumps name size).
Proof.
  intros w Hw.
  destruct (shm_names w !! name) as [seg|] eqn:Hl.
  - rewrite (init_attach_run _ _ _ _ Hl). unfold world_of. cbn [fst snd].
    apply inv_new_object; [exact Hw|].
    intros shm Hs. simpl in Hs. injection Hs as <-. simpl.
    split; [reflexivity|]. split; [apply len_nonneg|].
    intros seg0 Hb. injection Hb as <-.
    destruct Hw as [[_ Hn] _]. destruct (Hn _ _ Hl) as [buf Hm].
    exists buf. rewrite Hm. eauto.
  - destruct (Z_lt_le_dec 0 size) as [Hs|Hs].
    + rewrite (init_create_run _ _ _ Hl Hs).
      pose proof (inv_writeData (length (objs w)) ∅ _ (inv_created w name size Hw Hs)) as Hi.
      destruct (_writeData _ _ _ _) as [[r w'] t]. exact Hi.
    + rewrite (init_size_run _ _ _ Hl Hs). unfold world_of. cbn [fst snd].
      apply inv_new_object; [exact Hw|]. discriminate.
Qed.

Lemma inv_empty_world : inv loads empty_world.
Proof.
  split_inv.
  - intros i h Ho. destruct i; discriminate.
  - intros name seg Hl. simpl in Hl. rewrite lookup_empty in Hl. discriminate.
  - intros seg buf Hl. destruct seg; discriminate.
Qed.

Lemma inv_reachable w : reachable dumps loads pick w -> inv loads w.
Proof.
  induction 1 as [|w name size _ IH|w o self _ IH].
  - apply inv_empty_world.
  - apply preserves_init. exact IH.
  - apply preserves_run. exact IH.
Qed.

(** ** Reads and writes through a live handle *)

Lemma live_read w self name :
  live w self name ->
  exists r, _readData loads self w = (r, w, [Snapshot name]).
Proof.
  intros (h & shm & seg & buf & Ho & Hn & Hs & Hsn & Hb & Hm & Hsz & Hl).
  exists (decode loads buf). rewrite <- Hsn. eapply read_run; eauto.
Qed.

Lemma live_stored w self name S :
  live w self name -> stored loads w self S ->
  _readData loads self w = (Return (PySet S), w, [Snapshot name]).
Proof.
  intros Hlive Hst. destruct (live_read _ _ _ Hlive) as [r Hr].
  unfold stored, outcome_of in Hst. rewrite Hr in Hst. cbn [fst] in Hst.
  subst r. exact Hr.
Qed.

Lemma live_write w self name v :
  live w self name ->
  exists w', _writeData dumps self v w = (Return tt, w', []) /\
             live w' self name /\
             _readData loads self w' = (Return (PySet v), w', [Snapshot name]) /\
             (current w self name -> current w' self name).
Proof.
  intros (h & shm & seg & buf & Ho & Hn & Hs & Hsn & Hb & Hm & Hsz & Hl).
  assert (Hlt : (seg < length (shm_mem w))%nat) by (eapply lookup_lt_Some; eauto).
  destruct (Z_le_gt_dec (len (dumps v)) (len buf)) as [Hfit|Hbig].
  - eexists. split; [eapply write_fits_run; eauto|].
    set (bs := dumps v ++ zeros (len buf - len (dumps v))).
    assert (Hm' : shm_mem (with_segment w seg bs) !! seg = Some bs)
      by (simpl; apply list_lookup_insert_eq; exact Hlt).
    assert (Hlen : shm_size shm = len bs).
    { subst bs. rewrite len_app, len_zeros, Hsz.
      pose proof (len_nonneg (dumps v)). lia. }
    split; [|split].
    + exists h, shm, seg, bs. repeat (split; [eassumption|]). exact Hl.
    + rewrite <- Hsn, <- (decode_written v (len buf - len (dumps v))).
      eapply read_run; eauto.
    + intros (h1 & shm1 & seg1 & buf1 & Ho1 & _ & Hs1 & _ & Hb1 & _ & _ & Hl1).
      assert (h1 = h) as -> by congruence.
      assert (shm1 = shm) as -> by congruence.
      assert (seg1 = seg) as -> by congruence.
      exists h, shm, seg, bs. repeat (split; [eassumption|]). exact Hl1.
  - eexists. split.
    { eapply write_grow_run; eauto; try congruence.
      rewrite Hsz. apply len_nonneg. lia. }
    set (newSize := Z.max (len (dumps v)) (shm_size shm * 2)).
    set (bs := dumps v ++ zeros (newSize - len (dumps v))).
    set (new := mkShm (_name h) newSize (Some (length (shm_mem w)))).
    assert (Ho' : objs (regrown w self (_name h) newSize bs) !! self =
                  Some (mkSet (_name h) (_size h) (Some new))).
    { simpl. rewrite list_lookup_alter_eq, Ho. reflexivity. }
    assert (Hm' : shm_mem (regrown w self (_name h) newSize bs) !!
                  length (shm_mem w) = Some bs).
    { simpl. apply list_lookup_middle. reflexivity. }
    assert (Hlen : shm_size new = len bs).
    { simpl. subst bs. rewrite len_app, len_zeros. lia. }
    assert (Hl' : shm_names (regrown w self (_name h) newSize bs) !! name =
                  Some (length (shm_mem w))).
    { simpl. rewrite Hn. apply lookup_insert_eq. }
    split; [|split].
    + exists (mkSet (_name h) (_size h) (Some new)), new, (length (shm_mem w)), bs.
      split; [exact Ho'|]. split; [exact Hn|]. split; [reflexivity|].
      split; [exact Hn|]. split; [reflexivity|]. split; [exact Hm'|].
      split; [exact Hlen|]. rewrite Hl'. eauto.
    + rewrite <- Hn.
      rewrite <- (decode_written v (newSize - len (dumps v))).
      exact (read_run _ _ _ new _ _ Ho' eq_refl eq_refl Hm').
    + intros _.
      exists (mkSet (_name h) (_size h) (Some new)), new, (length (shm_mem w)), bs.
      split; [exact Ho'|]. split; [exact Hn|]. split; [reflexivity|].
      split; [exact Hn|]. split; [reflexivity|]. split; [exact Hm'|].
      split; [exact Hlen|]. exact Hl'.
Qed.

(** A method of the form
    [with self._lock: data = self._readData(); self._writeData(f(data))]. *)
Lemma mutate_run (f : gset T -> gset T) w self name S :
  live w self name -> stored loads w self S ->
  exists w',
    locked self (obj <- _readData loads self ;;
                 data <- the_set obj ;;
                 _writeData dumps self (f data)) w =
      (Return tt, w', [Acquire name; Snapshot name; Release name]) /\
    live w' self name /\ stored loads w' self (f S) /\
    (current w self name -> current w' self name).
Proof.
  intros Hlive Hst.
  pose proof (live_stored _ _ _ _ Hlive Hst) as Hr.
  destruct (live_write w self name (f S) Hlive) as (w' & Hw & Hlive' & Hr' & Hc).
  destruct Hlive as (h & shm & seg & buf & Ho & Hn & _).
  exists w'. split; [|split; [exact Hlive'|split; [|exact Hc]]].
  - unfold locked. erewrite bind_eq by (apply get_obj_run; exact Ho).
    unfold with_lock. erewrite bind_eq by exact Hr.
    erewrite bind_eq by apply the_set_run.
    rewrite Hw, Hn. reflexivity.
  - unfold stored. rewrite Hr'. reflexivity.
Qed.

Lemma current_live w self name : current w self name -> live w self name.
Proof.
  intros (h & shm & seg & buf & Ho & Hn & Hs & Hsn & Hb & Hm & Hsz & Hl).
  exists h, shm, seg, buf. repeat (split; [eassumption|]). eauto.
Qed.

(** A process that constructs a handle on the name of a current handle
    attaches to the same segment and reads the same set. *)
Lemma attach_sees w self name v size :
  current w self name -> stored loads w self v ->
  exists w', __init__ dumps name size w = (Return (length (objs w)), w', []) /\
             current w' (length (objs w)) name /\
             stored loads w' (length (objs w)) v.
Proof.
  intros Hc Hst.
  pose proof (live_stored _ _ _ _ (current_live _ _ _ Hc) Hst) as Hr.
  destruct Hc as (h & shm & seg & buf & Ho & Hn & Hs & Hsn & Hb & Hm & Hsz & Hl).
  rewrite (read_run _ _ _ _ _ _ Ho Hs Hb Hm) in Hr. injection Hr as Hv _.
  exists (attached w name size seg). split; [apply init_attach_run; exact Hl|].
  set (new := mkShm name (len (default [] (shm_mem w !! seg))) (Some seg)).
  assert (Ho' : objs (attached w name size seg) !! length (objs w) =
                Some (mkSet name size (Some new))).
  { simpl. apply list_lookup_middle. reflexivity. }
  split.
  - exists (mkSet name size (Some new)), new, seg, buf.
    split; [exact Ho'|]. repeat (split; [reflexivity|]).
    split; [exact Hm|]. split; [|exact Hl]. simpl. rewrite Hm. reflexivity.
  - unfold stored.
    rewrite (read_run _ _ _ new seg buf Ho' eq_refl eq_refl Hm).
    simpl. rewrite Hv. reflexivity.
Qed.

(** ** The claims about the write and read protocols *)

(** C1: for a set [v] whose encoding fits the capacity of the segment
    [self] maps, [_writeData] stores the encoding followed by zeros up to
    the capacity, stripping the trailing zeros of that content gives the
    encoding back, and [_readData] then returns exactly [v]; a segment
    whose stripped content is empty reads as the empty set. *)
Theorem write_then_read_fits w self h shm seg buf v :
  objs w !! self = Some h -> _shm h = Some shm -> shm_buf shm = Some seg ->
  shm_mem w !! seg = Some buf -> shm_size shm = len buf ->
  len (dumps v) <= shm_size shm ->
  let padded := dumps v ++ zeros (shm_size shm - len (dumps v)) in
  let w' := with_segment w seg padded in
  _writeData dumps self v w = (Return tt, w', []) /\
  shm_mem w' !! seg = Some padded /\
  len padded = shm_size shm /\
  rstrip padded = dumps v /\
  _readData loads self w' = (Return (PySet v), w', [Snapshot (shm_name shm)]) /\
  (rstrip buf = [] ->
   _readData loads self w = (Return (PySet ∅), w, [Snapshot (shm_name shm)])).
Proof.
  intros Ho Hs Hb Hm Hsz Hfit padded w'.
  assert (Hlt : (seg < length (shm_mem w))%nat) by (eapply lookup_lt_Some; eauto).
  assert (Hm' : shm_mem w' !! seg = Some padded)
    by (simpl; apply list_lookup_insert_eq; exact Hlt).
  split; [|split; [exact Hm'|split; [|split; [|split]]]].
  - subst w' padded. rewrite Hsz. eapply write_fits_run; eauto. lia.
  - subst padded. rewrite len_app, len_zeros.
    pose proof (len_nonneg (dumps v)). lia.
  - apply rstrip_dumps.
  - rewrite <- (decode_written v (shm_size shm - len (dumps v))).
    eapply read_run; eauto.
  - intros He. erewrite read_run by eauto.
    unfold decode. rewrite He. reflexivity.
Qed.

(** C2: for a set [v] whose encoding is longer than the capacity of the
    segment [self] maps, [_writeData] links the handle's name to a new
    segment of exactly [max(len(encoded), 2 * capacity)] bytes, leaves the
    old segment as it was, and a read through [self] returns [v], as does
    a read through a handle constructed on the name afterwards. *)
Theorem write_grows w self h shm seg buf v :
  objs w !! self = Some h -> _shm h = Some shm -> shm_name shm = _name h ->
  shm_buf shm = Some seg -> shm_mem w !! seg = Some buf ->
  shm_size shm = len buf ->
  is_Some (shm_names w !! _name h) ->
  shm_size shm < len (dumps v) ->
  let newSize := Z.max (len (dumps v)) (2 * shm_size shm) in
  exists w' seg' buf',
    _writeData dumps self v w = (Return tt, w', []) /\
    shm_names w' !! _name h = Some seg' /\ seg' <> seg /\
    shm_mem w' !! seg' = Some buf' /\ len buf' = newSize /\
    shm_mem w' !! seg = Some buf /\
    _readData loads self w' = (Return (PySet v), w', [Snapshot (_name h)]) /\
    forall size, exists w'',
      __init__ dumps (_name h) size w' = (Return (length (objs w')), w'', []) /\
      stored loads w'' (length (objs w')) v.
Proof.
  intros Ho Hs Hn Hb Hm Hsz Hl Hbig newSize.
  assert (Hlt : (seg < length (shm_mem w))%nat) by (eapply lookup_lt_Some; eauto).
  assert (Hz : 0 <= shm_size shm) by (rewrite Hsz; apply len_nonneg).
  pose proof (write_grow_run w self h shm v Ho Hs Hn Hz Hl Hbig) as Hw.
  cbv zeta in Hw. replace (shm_size shm * 2) with (2 * shm_size shm) in Hw by lia.
  fold newSize in Hw.
  set (bs := dumps v ++ zeros (newSize - len (dumps v))) in *.
  set (w' := regrown w self (_name h) newSize bs) in *.
  set (new := mkShm (_name h) newSize (Some (length (shm_mem w)))).
  assert (Ho' : objs w' !! self = Some (mkSet (_name h) (_size h) (Some new))).
  { simpl. rewrite list_lookup_alter_eq, Ho. reflexivity. }
  assert (Hm' : shm_mem w' !! length (shm_mem w) = Some bs).
  { simpl. apply list_lookup_middle. reflexivity. }
  assert (Hlen : len bs = newSize).
  { subst bs. rewrite len_app, len_zeros. lia. }
  assert (Hr : _readData loads self w' = (Return (PySet v), w', [Snapshot (_name h)])).
  { rewrite <- (decode_written v (newSize - len (dumps v))).
    exact (read_run _ _ _ new _ _ Ho' eq_refl eq_refl Hm'). }
  exists w', (length (shm_mem w)), bs.
  split; [exact Hw|]. split; [simpl; apply lookup_insert_eq|].
  split; [lia|]. split; [exact Hm'|]. split; [exact Hlen|].
  split; [simpl; rewrite lookup_app_l by exact Hlt; exact Hm|].
  split; [exact Hr|].
  intros size.
  destruct (attach_sees w' self (_name h) v size) as (w'' & Hi & _ & Hst).
  - exists (mkSet (_name h) (_size h) (Some new)), new, (length (shm_mem w)), bs.
    split; [exact Ho'|]. repeat (split; [reflexivity|]).
    split; [exact Hm'|]. split; [simpl; lia|]. simpl. apply lookup_insert_eq.
  - unfold stored. rewrite Hr. reflexivity.
  - exists w''. split; assumption.
Qed.

(** ** The claims about [remove], [pop] and [discard] *)

(** C4: when the stored set [S] contains [x], [remove(x)] stores exactly
    [S] without [x]; when it does not, [remove(x)] raises [KeyError(x)]
    (the spec's NotFoundError) and leaves the world, hence the stored set,
    as it was. *)
Theorem remove_spec w self name S x :
  live w self name -> stored loads w self S ->
  (x ∈ S ->
   exists w',
     remove dumps loads self x w =
       (Return tt, w', [Acquire name; Snapshot name; Release name]) /\
     live w' self name /\ stored loads w' self (S ∖ {[x]})) /\
  (x ∉ S ->
   remove dumps loads self x w =
     (Raise (KeyError (inl x)), w, [Acquire name; Snapshot name; Release name]) /\
   stored loads w self S).
Proof.
  intros Hlive Hst.
  pose proof (live_stored _ _ _ _ Hlive Hst) as Hr.
  split; intros Hx.
  - destruct (live_write w self name (S ∖ {[x]}) Hlive) as (w' & Hw & Hlive' & Hr' & _).
    destruct Hlive as (h & shm & seg & buf & Ho & Hn & _).
    exists w'. split; [|split; [exact Hlive'|]].
    + unfold remove, locked. erewrite bind_eq by (apply get_obj_run; exact Ho).
      unfold with_lock. erewrite bind_eq by exact Hr.
      erewrite bind_eq by apply the_set_run.
      destruct (decide (x ∈ S)) as [_|Hn']; [|contradiction].
      erewrite bind_eq by reflexivity.
      rewrite Hw, Hn. reflexivity.
    + unfold stored. rewrite Hr'. reflexivity.
  - split; [|exact Hst].
    destruct Hlive as (h & shm & seg & buf & Ho & Hn & _).
    unfold remove, locked. erewrite bind_eq by (apply get_obj_run; exact Ho).
    unfold with_lock. erewrite bind_eq by exact Hr.
    erewrite bind_eq by apply the_set_run.
    destruct (decide (x ∈ S)) as [Hin|_]; [contradiction|].
    rewrite Hn. reflexivity.
Qed.

(** C5: on an empty stored set [pop()] raises
    [KeyError("pop from empty set")] (the spec's EmptyError) and leaves the
    world as it was; on a non-empty stored set [S] it returns an element
    [x] of [S] and stores exactly [S] without [x], which has one element
    less and does not contain [x]. *)
Theorem pop_spec w self name S :
  live w self name -> stored loads w self S ->
  (S = ∅ ->
   pop dumps loads pick self w =
     (Raise (KeyError (inr "pop from empty set")), w,
      [Acquire name; Snapshot name; Release name]) /\
   stored loads w self ∅) /\
  (S <> ∅ ->
   exists x w',
     pop dumps loads pick self w =
       (Return x, w', [Acquire name; Snapshot name; Release name]) /\
     x ∈ S /\ live w' self name /\ stored loads w' self (S ∖ {[x]}) /\
     (x ∉ S ∖ {[x]}) /\ (size (S ∖ {[x]}) + 1 = size S)%nat).
Proof.
  intros Hlive Hst.
  pose proof (live_stored _ _ _ _ Hlive Hst) as Hr.
  split; intros HS.
  - split; [|rewrite <- HS; exact Hst].
    destruct Hlive as (h & shm & seg & buf & Ho & Hn & _).
    unfold pop, locked. erewrite bind_eq by (apply get_obj_run; exact Ho).
    unfold with_lock. erewrite bind_eq by exact Hr.
    erewrite bind_eq by apply the_set_run.
    destruct (decide (S = ∅)) as [_|Hne]; [|contradiction].
    rewrite Hn. reflexivity.
  - pose proof (pick_elem S HS) as Hin.
    destruct (live_write w self name (S ∖ {[pick S]}) Hlive)
      as (w' & Hw & Hlive' & Hr' & _).
    destruct Hlive as (h & shm & seg & buf & Ho & Hn & _).
    exists (pick S), w'.
    split; [|split; [exact Hin|split; [exact Hlive'|split; [|split]]]].
    + unfold pop, locked. erewrite bind_eq by (apply get_obj_run; exact Ho).
      unfold with_lock. erewrite bind_eq by exact Hr.
      erewrite bind_eq by apply the_set_run.
      destruct (decide (S = ∅)) as [He|_]; [contradiction|].
      erewrite bind_eq by exact Hw.
      rewrite Hn. reflexivity.
    + unfold stored. rewrite Hr'. reflexivity.
    + intros [_ Hnot]%elem_of_difference. apply Hnot, elem_of_singleton. reflexivity.
    + rewrite size_difference by (apply singleton_subseteq_l; exact Hin).
      rewrite size_singleton.
      assert (size S <> 0)%nat by (intros E; apply size_empty_inv in E; apply HS, leibniz_equiv, E).
      lia.
Qed.

(** C10: [discard(x)] never raises on a live handle; it stores [S]
    without [x], which is [S] itself when [x] is not in [S]. *)
Theorem discard_spec w self name S x :
  live w self name -> stored loads w self S ->
  exists w',
    discard dumps loads self x w =
      (Return tt, w', [Acquire name; Snapshot name; Release name]) /\
    live w' self name /\
    stored loads w' self (S ∖ {[x]}) /\
    (x ∉ S -> stored loads w' self S).
Proof.
  intros Hlive Hst.
  destruct (mutate_run (fun data => data ∖ {[x]}) w self name S Hlive Hst)
    as (w' & Hrun & Hlive' & Hst' & _).
  exists w'. split; [exact Hrun|]. split; [exact Hlive'|]. split; [exact Hst'|].
  intros Hx. assert (E : S ∖ {[x]} = S).
  { apply set_eq. intros y. rewrite elem_of_difference, elem_of_singleton.
    split; [tauto|]. intros Hy. split; [exact Hy|]. intros ->. contradiction. }
  rewrite E in Hst'. exact Hst'.
Qed.

(** ** The claims about construction and the invariant *)

Lemma created_current w name size :
  0 < size -> current (created w name size) (length (objs w)) name.
Proof.
  intros Hs.
  exists (mkSet name size (Some (mkShm name size (Some (length (shm_mem w)))))),
         (mkShm name size (Some (length (shm_mem w)))),
         (length (shm_mem w)), (zeros size).
  split; [simpl; apply list_lookup_middle; reflexivity|].
  repeat (split; [reflexivity|]).
  split; [simpl; apply list_lookup_middle; reflexivity|].
  split; [simpl; rewrite len_zeros; lia|].
  simpl. apply lookup_insert_eq.
Qed.

(** C7: when no segment is linked under [name] (and [size] is positive),
    the constructor creates a zero-filled segment of [size] bytes and then
    writes the empty set through [_writeData]: it returns a handle that is
    current, reads as the empty set and, when the encoding of the empty
    set fits, maps the created segment holding that encoding padded with
    zeros; a handle constructed on the name afterwards reads the empty
    set too. *)
Theorem open_creates_empty w name size :
  shm_names w !! name = None -> 0 < size ->
  let self := length (objs w) in
  let seg := length (shm_mem w) in
  let w0 := mkWorld (shm_names w) (shm_mem w) (objs w ++ [mkSet name size None]) in
  SharedMemory_create (T:=T) name size w0 =
    (Return (mkShm name size (Some seg)),
     mkWorld (<[name := seg]> (shm_names w)) (shm_mem w ++ [zeros size]) (objs w0),
     []) /\
  len (zeros size) = size /\
  exists w',
    __init__ dumps name size w = (Return self, w', []) /\
    current w' self name /\
    stored loads w' self ∅ /\
    (len (dumps ∅) <= size ->
     shm_names w' !! name = Some seg /\
     shm_mem w' !! seg = Some (dumps ∅ ++ zeros (size - len (dumps ∅)))) /\
    forall size2, exists w'',
      __init__ dumps name size2 w' = (Return (length (objs w')), w'', []) /\
      stored loads w'' (length (objs w')) ∅.
Proof.
  intros Hl Hs self seg w0.
  split.
  { unfold SharedMemory_create. subst w0. cbn [shm_names shm_mem objs].
    destruct (size <? 0) eqn:E1; [lia|].
    destruct (size =? 0) eqn:E2; [lia|].
    rewrite Hl. reflexivity. }
  split; [rewrite len_zeros; lia|].
  subst self seg.
  pose proof (created_current w name size Hs) as Hc.
  destruct (live_write _ _ _ ∅ (current_live _ _ _ Hc)) as (w' & Hw & Hlive & Hr & Hc').
  specialize (Hc' Hc).
  assert (Hst : stored loads w' (length (objs w)) ∅)
    by (unfold stored; rewrite Hr; reflexivity).
  exists w'. split; [|split; [exact Hc'|split; [exact Hst|split]]].
  - rewrite (init_create_run _ _ _ Hl Hs), Hw. reflexivity.
  - intros Hfit.
    assert (Hm : shm_mem (created w name size) !! length (shm_mem w) =
                 Some (zeros size))
      by (simpl; apply list_lookup_middle; reflexivity).
    erewrite write_fits_run in Hw.
    + injection Hw as <-. simpl. split; [apply lookup_insert_eq|].
      rewrite len_zeros. replace (Z.max 0 size) with size by lia.
      apply list_lookup_insert_eq. rewrite length_app. simpl. lia.
    + simpl. apply list_lookup_middle. reflexivity.
    + reflexivity.
    + reflexivity.
    + exact Hm.
    + simpl. rewrite len_zeros. lia.
    + rewrite len_zeros. lia.
  - intros size2.
    destruct (attach_sees w' _ name ∅ size2 Hc' Hst) as (w'' & Hi & _ & Hst'').
    exists w''. split; assumption.
Qed.

(** C3: in every world that constructors and public operations bring
    about, each segment is all-zero or its stripped content decodes to a
    set; the predicate holds in the empty world and is kept by every
    constructor call and every public operation, whether it returns or
    raises. *)
Theorem segment_invariant :
  (forall w seg buf,
     reachable dumps loads pick w -> shm_mem w !! seg = Some buf ->
     rstrip buf = [] \/ exists S, loads (rstrip buf) = Loaded S) /\
  inv loads empty_world /\
  (forall w name size, inv loads w -> inv loads (world_of (__init__ dumps name size w))) /\
  (forall w o self, inv loads w -> inv loads (world_of (run dumps loads pick o self w))).
Proof.
  split; [|split; [|split]].
  - intros w seg buf Hr Hm.
    destruct (inv_reachable w Hr) as [_ Hi].
    destruct (Hi seg buf Hm) as [He|[S HS]]; eauto.
  - apply inv_empty_world.
  - intros w name size. apply preserves_init.
  - intros w o self. apply preserves_run.
Qed.

(** ** Similar worlds cannot be told apart *)

Lemma seg_sim_refl (m : list (list byte)) : Forall2 (seg_sim loads) m m.
Proof. induction m; constructor; [split; reflexivity|assumption]. Qed.



Lemma wf_writeData self v w : wf w -> wf (world_of (_writeData dumps self v w)).
Proof.
  intros [Hwf Hnm]. rewrite writeData_cases by exact Hwf.
  destruct (objs w !! self) as [h|] eqn:Ho; [|split; assumption].
  destruct (_shm h) as [shm|] eqn:Hs; [|split; assumption].
  destruct (Hwf _ _ Ho _ Hs) as (Hn & Hz & Hmap).
  destruct (len (dumps v) >? shm_size shm) eqn:E.
  - cbv zeta. destruct (shm_names w !! _name h).
    + unfold world_of. cbn [fst snd]. split.
      * apply handles_ok_regrown; eauto; [lia|]. rewrite len_app, len_zeros. lia.
      * apply names_ok_regrown. exact Hnm.
    + unfold world_of at 1. cbn [fst snd]. split.
      * eapply handles_ok_closed; eauto.
      * exact Hnm.
  - destruct (shm_buf shm) as [seg|] eqn:Hb; [|split; assumption].
    destruct (Hmap _ eq_refl) as (buf & Hm & Hsz).
    unfold world_of. cbn [fst snd]. split.
    + eapply handles_ok_with_segment; eauto. rewrite len_app, len_zeros.
      pose proof (len_nonneg (dumps v)). lia.
    + apply names_ok_with_segment. exact Hnm.
Qed.

Ltac same_result := split; [|split; [|split]]; simpl; auto.











Lemma respects_close self : respects loads (close (T:=T) self).
Proof.
  intros w w0 [Hh Hnm] Hs. pose proof Hs as (Hn & Ho & Hm).
  unfold close, bind, get_obj. rewrite <- Ho.
  destruct (objs w !! self) as [h|] eqn:E; [|same_result; split; auto].
  destruct (_shm h) as [shm|] eqn:E'; [|same_result; split; auto].
  same_result.
  - split; [|exact Hnm]. eapply handles_ok_closed; eauto.
  - unfold world_of, set_shm, similar. simpl. rewrite <- Ho. auto.
Qed.

Lemma respects_unlink self : respects loads (unlink (T:=T) self).
Proof.
  intros w w0 [Hh Hnm] Hs. pose proof Hs as (Hn & Ho & Hm).
  unfold unlink, bind, get_obj. rewrite <- Ho.
  destruct (objs w !! self) as [h|] eqn:E; [|same_result; split; auto].
  destruct (_shm h) as [shm|] eqn:E'; [|same_result; split; auto].
  unfold SharedMemory_unlink. rewrite <- Hn.
  destruct (shm_names w !! shm_name shm); [|same_result; split; auto].
  same_result.
  - split; [exact Hh|]. intros name seg. simpl. intros Hl.
    apply lookup_delete_Some in Hl as [_ Hl]. eauto.
  - unfold world_of, similar. simpl. auto.
Qed.




(** ** The constructor under a race, and the locks of [==] *)

(** A create that raises ends the constructor: nothing catches it. *)
Lemma init_racing_create_raises w between name size e w1 t :
  shm_names w !! name = None ->
  SharedMemory_create (T:=T) name size
    (between (mkWorld (shm_names w) (shm_mem w) (objs w ++ [mkSet name size None]))) =
    (Raise e, w1, t) ->
  init_racing dumps between name size w = (Raise e, w1, t).
Proof.
  intros Hl Hc. unfold init_racing, bind at 1, try_except_FileNotFoundError.
  unfold bind at 1, SharedMemory_attach. cbn [shm_names shm_mem objs].
  rewrite Hl. unfold bind at 1. unfold bind at 1. unfold bind at 1.
  rewrite Hc. reflexivity.
Qed.

(** C6 (the defect): the constructor is to attach to the segment of its
    name or, when there is none, create it.  When its attach finds no
    segment and, by the time of its create, another process has linked the
    name, the constructor raises the provider's [FileExistsError] with the
    world as the other process left it, and attaches to nothing.  A create
    that fails for another reason (a size that is not positive) raises its
    [ValueError] in the same way. *)
Theorem open_race_raises w between name size :
  shm_names w !! name = None ->
  let w0 := mkWorld (shm_names w) (shm_mem w) (objs w ++ [mkSet name size None]) in
  (0 < size -> is_Some (shm_names (between w0) !! name) ->
   init_racing dumps between name size w = (Raise FileExistsError, between w0, [])) /\
  (size <= 0 ->
   init_racing dumps between name size w = (Raise ValueError, between w0, [])).
Proof.
  intros Hl w0. split.
  - intros Hs [seg Hseg]. apply init_racing_create_raises; [exact Hl|].
    fold w0. unfold SharedMemory_create.
    destruct (size <? 0) eqn:E1; [lia|].
    destruct (size =? 0) eqn:E2; [lia|].
    rewrite Hseg. reflexivity.
  - intros Hs. apply init_racing_create_raises; [exact Hl|].
    fold w0. unfold SharedMemory_create.
    destruct (size <? 0) eqn:E1; [reflexivity|].
    destruct (size =? 0) eqn:E2; [reflexivity|lia].
Qed.



End Protocol.

(** ** The pickle codec of [set[bool]] meets the assumptions *)

Lemma gset_bool_cases (s : gset bool) :
  s = ∅ \/ s = {[true]} \/ s = {[false]} \/ s = {[true; false]}.
Proof.
  destruct (decide (true ∈ s)) as [Ht|Ht], (decide (false ∈ s)) as [Hf|Hf].
  - right. right. right. apply set_eq. intros []; set_solver.
  - right. left. apply set_eq. intros []; set_solver.
  - right. right. left. apply set_eq. intros []; set_solver.
  - left. apply set_eq. intros []; set_solver.
Qed.

Lemma bool_loads_dumps (v : gset bool) :
  BoolPickle.loads (BoolPickle.dumps v) = Loaded v.
Proof.
  destruct (gset_bool_cases v) as [->|[->|[->| ->]]]; vm_compute; reflexivity.
Qed.

Lemma bool_dumps_end (v : gset bool) :
  exists b, last (BoolPickle.dumps v) = Some b /\ b <> x00.
Proof.
  exists BoolPickle.STOP. split; [|discriminate].
  destruct (gset_bool_cases v) as [->|[->|[->| ->]]]; vm_compute; reflexivity.
Qed.

Lemma bool_pick_elem (s : gset bool) : s <> ∅ -> BoolPickle.pick s ∈ s.
Proof.
  intros Hne. unfold BoolPickle.pick.
  destruct (gset_bool_cases s) as [->|[->|[->| ->]]];
    [contradiction|vm_compute; set_solver..].
Qed.

(** ** The theorems at work on [set[bool]] *)

Ltac by_evaluation := vm_compute; first [reflexivity | discriminate | eauto].

Lemma write_then_read_fits_witness :
  len (BoolPickle.dumps {[true]}) <= 64 /\
  let w' := world_of (_writeData BoolPickle.dumps 0%nat {[true]} BoolPickle.s0) in
  _readData BoolPickle.loads 0%nat w' = (Return (PySet {[true]}), w', [Snapshot "s"]).
Proof.
  split; [by_evaluation|].
  pose proof (write_then_read_fits BoolPickle.dumps BoolPickle.loads
                bool_loads_dumps bool_dumps_end BoolPickle.s0 0%nat
                (mkSet "s" 64 (Some (mkShm "s" 64 (Some 0%nat))))
                (mkShm "s" 64 (Some 0%nat)) 0%nat
                (BoolPickle.dumps ∅ ++ zeros 59) {[true]}
                ltac:(by_evaluation) ltac:(by_evaluation) ltac:(by_evaluation)
                ltac:(by_evaluation) ltac:(by_evaluation) ltac:(by_evaluation))
    as (Hw & _ & _ & _ & Hr & _).
  cbv zeta in Hw, Hr. cbv zeta. rewrite Hw. exact Hr.
Defined.

Lemma write_grows_witness :
  len (BoolPickle.dumps {[true]}) = 17 /\
  exists w' seg' buf',
    _writeData BoolPickle.dumps 0%nat {[true]} BoolPickle.s8 = (Return tt, w', []) /\
    shm_names w' !! "s" = Some seg' /\
    shm_mem w' !! seg' = Some buf' /\ len buf' = 17 /\
    _readData BoolPickle.loads 0%nat w' = (Return (PySet {[true]}), w', [Snapshot "s"]).
Proof.
  split; [by_evaluation|].
  destruct (write_grows BoolPickle.dumps BoolPickle.loads
              bool_loads_dumps bool_dumps_end BoolPickle.s8 0%nat
              (mkSet "s" 8 (Some (mkShm "s" 8 (Some 0%nat))))
              (mkShm "s" 8 (Some 0%nat)) 0%nat
              (BoolPickle.dumps ∅ ++ zeros 3) {[true]}
              ltac:(by_evaluation) ltac:(by_evaluation) ltac:(by_evaluation)
              ltac:(by_evaluation) ltac:(by_evaluation) ltac:(by_evaluation)
              ltac:(by_evaluation) ltac:(by_evaluation))
    as (w' & seg' & buf' & Hw & Hn & _ & Hm & Hl & _ & Hr & _).
  exists w', seg', buf'. repeat (split; [assumption|]). exact Hr.
Defined.

Ltac show_live :=
  unfold live, current; do 4 eexists;
  repeat (split; [by_evaluation|]); by_evaluation.

Ltac show_stored := unfold stored; by_evaluation.

Lemma segment_invariant_witness :
  let buf := BoolPickle.dumps {[true]} ++ zeros 47 in
  shm_mem BoolPickle.s1 !! 0%nat = Some buf /\
  (rstrip buf = [] \/ exists S, BoolPickle.loads (rstrip buf) = Loaded S).
Proof.
  cbv zeta. split; [by_evaluation|].
  refine (proj1 (segment_invariant BoolPickle.dumps BoolPickle.loads BoolPickle.pick
                   bool_loads_dumps bool_dumps_end) BoolPickle.s1 0%nat _ _ _).
  - apply reach_run. apply reach_init. apply reach_empty.
  - by_evaluation.
Defined.

Lemma remove_spec_witness :
  (exists w',
     remove BoolPickle.dumps BoolPickle.loads 0%nat true BoolPickle.s1 =
       (Return tt, w', [Acquire "s"; Snapshot "s"; Release "s"]) /\
     stored BoolPickle.loads w' 0%nat ({[true]} ∖ {[true]})) /\
  remove BoolPickle.dumps BoolPickle.loads 0%nat false BoolPickle.s1 =
    (Raise (KeyError (inl false)), BoolPickle.s1,
     [Acquire "s"; Snapshot "s"; Release "s"]).
Proof.
  split.
  - destruct (remove_spec BoolPickle.dumps BoolPickle.loads
                bool_loads_dumps bool_dumps_end BoolPickle.s1 0%nat "s" {[true]} true
                ltac:(show_live) ltac:(show_stored)) as [Hin _].
    destruct (Hin ltac:(set_solver)) as (w' & Hr & _ & Hst).
    exists w'. split; assumption.
  - destruct (remove_spec BoolPickle.dumps BoolPickle.loads
                bool_loads_dumps bool_dumps_end BoolPickle.s1 0%nat "s" {[true]} false
                ltac:(show_live) ltac:(show_stored)) as [_ Hout].
    destruct (Hout ltac:(rewrite elem_of_singleton; discriminate)) as [Hr _].
    exact Hr.
Defined.

Lemma pop_spec_witness :
  exists x w',
    pop BoolPickle.dumps BoolPickle.loads BoolPickle.pick 0%nat BoolPickle.s1 =
      (Return x, w', [Acquire "s"; Snapshot "s"; Release "s"]) /\
    x ∈ ({[true]} : gset bool) /\
    stored BoolPickle.loads w' 0%nat ({[true]} ∖ {[x]}).
Proof.
  destruct (pop_spec BoolPickle.dumps BoolPickle.loads BoolPickle.pick
              bool_loads_dumps bool_dumps_end bool_pick_elem
              BoolPickle.s1 0%nat "s" {[true]}
              ltac:(show_live) ltac:(show_stored)) as [_ Hne].
  destruct (Hne ltac:(set_solver)) as (x & w' & Hr & Hin & _ & Hst & _).
  exists x, w'. repeat (split; [assumption|]). exact Hst.
Defined.

Lemma discard_spec_witness :
  exists w',
    discard BoolPickle.dumps BoolPickle.loads 0%nat false BoolPickle.s1 =
      (Return tt, w', [Acquire "s"; Snapshot "s"; Release "s"]) /\
    stored BoolPickle.loads w' 0%nat {[true]}.
Proof.
  destruct (discard_spec BoolPickle.dumps BoolPickle.loads
              bool_loads_dumps bool_dumps_end BoolPickle.s1 0%nat "s" {[true]} false
              ltac:(show_live) ltac:(show_stored)) as (w' & Hr & _ & _ & Hst).
  exists w'. split; [exact Hr|]. apply Hst. set_solver.
Defined.

Lemma open_creates_empty_witness :
  exists w',
    __init__ BoolPickle.dumps "s" 64 empty_world = (Return 0%nat, w', []) /\
    stored BoolPickle.loads w' 0%nat ∅ /\
    shm_mem w' !! 0%nat =
      Some (BoolPickle.dumps ∅ ++ zeros (64 - len (BoolPickle.dumps ∅))).
Proof.
  destruct (open_creates_empty BoolPickle.dumps BoolPickle.loads
              bool_loads_dumps bool_dumps_end empty_world "s" 64
              ltac:(by_evaluation) ltac:(by_evaluation))
    as (_ & _ & w' & Hi & _ & Hst & Hfit & _).
  destruct (Hfit ltac:(by_evaluation)) as [_ Hm].
  exists w'. split; [exact Hi|]. split; [exact Hst|exact Hm].
Defined.




Lemma open_race_raises_witness :
  init_racing BoolPickle.dumps BoolPickle.winner "x" 16 empty_world =
    (Raise FileExistsError,
     BoolPickle.winner (mkWorld (shm_names empty_world) (shm_mem empty_world)
                                (objs empty_world ++ [mkSet "x" 16 None])),
     []).
Proof.
  apply (proj1 (open_race_raises BoolPickle.dumps empty_world BoolPickle.winner
                  "x" 16 ltac:(by_evaluation)));
    by_evaluation.
Defined.


(** ** The race of two constructors, and where the claims C8 and C9 fail *)

(** C6: a process constructs [RememorySet("x", 16)] in a fresh system, its
    attach finds nothing, another process creates the segment, and the
    create of the first raises [FileExistsError]: the constructor returns
    no handle, where the name has a segment to attach to. *)
Lemma open_race_counterexample :
  let w0 := mkWorld (shm_names empty_world) (shm_mem empty_world)
                    (objs empty_world ++ [mkSet "x" 16 None]) in
  shm_names empty_world !! "x" = None /\
  is_Some (shm_names (BoolPickle.winner w0) !! "x") /\
  outcome_of (init_racing BoolPickle.dumps BoolPickle.winner "x" 16 empty_world) =
    Raise FileExistsError /\
  ~ (exists self,
       outcome_of (init_racing BoolPickle.dumps BoolPickle.winner "x" 16 empty_world) =
       Return self).
Proof.
  cbv zeta. split; [by_evaluation|]. split; [by_evaluation|].
  split; [by_evaluation|].
  intros [self Hs]. vm_compute in Hs. discriminate.
Qed.



(** * Further properties of the operations *)

Section SetFacts.

Context {T : Type} `{Countable T}.

Lemma elem_of_foldl_union (S : gset T) others x :
  x ∈ foldl (∪) S others <-> x ∈ S \/ exists o, o ∈ others /\ x ∈ o.
Proof.
  revert S. induction others as [|o others IH]; intros S; simpl.
  - split; [auto|]. intros [Hx|(o & Ho & _)]; [exact Hx|].
    apply elem_of_nil in Ho. contradiction.
  - rewrite IH, elem_of_union. split.
    + intros [[Hx|Hx]|(o' & Ho' & Hx)]; [auto| |].
      * right. exists o. split; [apply list_elem_of_here|exact Hx].
      * right. exists o'. split; [apply list_elem_of_further; exact Ho'|exact Hx].
    + intros [Hx|(o' & Ho' & Hx)]; [auto|].
      apply elem_of_cons in Ho' as [->|Ho']; [auto|].
      right. exists o'. auto.
Qed.

Lemma elem_of_foldl_intersection (S : gset T) others x :
  x ∈ foldl (∩) S others <-> x ∈ S /\ forall o, o ∈ others -> x ∈ o.
Proof.
  revert S. induction others as [|o others IH]; intros S; simpl.
  - split; [|tauto]. intros Hx. split; [exact Hx|].
    intros o Ho. apply elem_of_nil in Ho. contradiction.
  - rewrite IH, elem_of_intersection. split.
    + intros [[Hx Hxo] Hall]. split; [exact Hx|].
      intros o' Ho'. apply elem_of_cons in Ho' as [->|Ho']; auto.
    + intros [Hx Hall]. split; [split; [exact Hx|]|].
      * apply Hall, list_elem_of_here.
      * intros o' Ho'. apply Hall, list_elem_of_further, Ho'.
Qed.

Lemma elem_of_foldl_difference (S : gset T) others x :
  x ∈ foldl (∖) S others <-> x ∈ S /\ forall o, o ∈ others -> x ∉ o.
Proof.
  revert S. induction others as [|o others IH]; intros S; simpl.
  - split; [|tauto]. intros Hx. split; [exact Hx|].
    intros o Ho. apply elem_of_nil in Ho. contradiction.
  - rewrite IH, elem_of_difference. split.
    + intros [[Hx Hxo] Hall]. split; [exact Hx|].
      intros o' Ho'. apply elem_of_cons in Ho' as [->|Ho']; auto.
    + intros [Hx Hall]. split; [split; [exact Hx|]|].
      * apply Hall, list_elem_of_here.
      * intros o' Ho'. apply Hall, list_elem_of_further, Ho'.
Qed.

Lemma symmetric_difference_twice (S other : gset T) :
  symmetric_difference (symmetric_difference S other) other = S.
Proof.
  apply set_eq. intros x. unfold symmetric_difference.
  rewrite !elem_of_union, !elem_of_difference, !elem_of_union, !elem_of_difference.
  destruct (decide (x ∈ S)), (decide (x ∈ other)); tauto.
Qed.

Lemma elem_of_symmetric_difference (S other : gset T) x :
  x ∈ symmetric_difference S other <-> (x ∈ S /\ x ∉ other) \/ (x ∈ other /\ x ∉ S).
Proof.
  unfold symmetric_difference. rewrite elem_of_union, !elem_of_difference. tauto.
Qed.

End SetFacts.

Section Operations.

Context {T : Type} `{Countable T}.
Variable dumps : gset T -> list byte.
Variable loads : list byte -> unpickled (T:=T).
Variable pick : gset T -> T.

Hypothesis loads_dumps : forall v, loads (dumps v) = Loaded v.
Hypothesis dumps_end : forall v, exists b, last (dumps v) = Some b /\ b <> x00.

Notation "x <- m ;; k" := (bind m (fun x => k))
  (at level 100, m at next level, right associativity).
Notation "m ;;; k" := (bind m (fun _ => k))
  (at level 100, right associativity).
Local Abbreviation M := (@M T).

(** A method of the form
    [with self._lock: data = self._readData(); return g(data)]. *)
Lemma query_run {A} (g : gset T -> A) w self name S :
  live w self name -> stored loads w self S ->
  locked self (obj <- _readData loads self ;; data <- the_set obj ;; ret (g data)) w =
    (Return (g S), w, [Acquire name; Snapshot name; Release name]).
Proof.
  intros Hlive Hst.
  pose proof (live_stored _ _ _ _ _ Hlive Hst) as Hr.
  destruct Hlive as (h & shm & seg & buf & Ho & Hn & _).
  unfold locked. erewrite bind_eq by (apply get_obj_run; exact Ho).
  unfold with_lock. erewrite bind_eq by exact Hr.
  erewrite bind_eq by apply the_set_run.
  rewrite Hn. reflexivity.
Qed.

(** X1: [add(x)] on a live handle storing [S] stores [S] with [x] added,
    in one critical section; afterwards [x in s] is [True], and when [x]
    was already in [S] the stored set is [S] again. *)
Theorem add_spec w self name S x :
  live w self name -> stored loads w self S ->
  exists w',
    add dumps loads self x w =
      (Return tt, w', [Acquire name; Snapshot name; Release name]) /\
    live w' self name /\
    stored loads w' self ({[x]} ∪ S) /\
    (x ∈ S -> stored loads w' self S) /\
    __contains__ loads self x w' =
      (Return true, w', [Acquire name; Snapshot name; Release name]).
Proof.
  intros Hlive Hst.
  destruct (mutate_run dumps loads loads_dumps dumps_end
              (fun data => {[x]} ∪ data) w self name S Hlive Hst)
    as (w' & Hrun & Hlive' & Hst' & _).
  exists w'. split; [exact Hrun|]. split; [exact Hlive'|]. split; [exact Hst'|].
  split.
  - intros Hx. assert (E : {[x]} ∪ S = S).
    { apply set_eq. intros y. rewrite elem_of_union, elem_of_singleton.
      split; [intros [->|Hy]; assumption|auto]. }
    rewrite E in Hst'. exact Hst'.
  - unfold __contains__.
    rewrite (query_run (fun data => bool_decide (x ∈ data)) w' self name _ Hlive' Hst').
    rewrite bool_decide_eq_true_2; [reflexivity|].
    apply elem_of_union_l, elem_of_singleton. reflexivity.
Qed.

(** X2: [clear()] on a live handle stores the empty set without reading
    the segment (its trace has no snapshot), whatever the segment held. *)
Theorem clear_spec w self name :
  live w self name ->
  exists w',
    clear dumps self w = (Return tt, w', [Acquire name; Release name]) /\
    live w' self name /\ stored loads w' self ∅.
Proof.
  intros Hlive.
  destruct (live_write dumps loads loads_dumps dumps_end w self name ∅ Hlive)
    as (w' & Hw & Hlive' & Hr & _).
  destruct Hlive as (h & shm & seg & buf & Ho & Hn & _).
  exists w'. split; [|split; [exact Hlive'|]].
  - unfold clear, locked. erewrite bind_eq by (apply get_obj_run; exact Ho).
    unfold with_lock. rewrite Hw, Hn. reflexivity.
  - unfold stored. rewrite Hr. reflexivity.
Qed.

(** X3: on a live handle storing [S], [union(others...)] returns the set of
    the elements of [S] or of one of [others] and leaves the world as it
    is, [s | other] returns [S ∪ other], and [update(others...)] stores the
    set [union] returns. *)
Theorem update_union_spec w self name S others other :
  live w self name -> stored loads w self S ->
  let R := foldl (∪) S others in
  let sec := [Acquire name; Snapshot name; Release name] in
  (forall x, x ∈ R <-> x ∈ S \/ exists o, o ∈ others /\ x ∈ o) /\
  union loads self others w = (Return R, w, sec) /\
  __or__ loads self other w = (Return (S ∪ other), w, sec) /\
  exists w',
    update dumps loads self others w = (Return tt, w', sec) /\
    live w' self name /\ stored loads w' self R.
Proof.
  intros Hlive Hst R sec.
  split; [intros x; apply elem_of_foldl_union|].
  split; [exact (query_run (fun data => foldl (∪) data others) w self name S Hlive Hst)|].
  split; [exact (query_run (fun data => foldl (∪) data [other]) w self name S Hlive Hst)|].
  destruct (mutate_run dumps loads loads_dumps dumps_end
              (fun data => foldl (∪) data others) w self name S Hlive Hst)
    as (w' & Hrun & Hlive' & Hst' & _).
  exists w'. split; [exact Hrun|]. split; assumption.
Qed.

(** X4: on a live handle storing [S], [intersection(others...)] returns the
    elements of [S] that are in every one of [others] and leaves the world
    as it is, [s & other] returns [S ∩ other], and
    [intersectionUpdate(others...)] stores the set [intersection] returns. *)
Theorem intersection_spec w self name S others other :
  live w self name -> stored loads w self S ->
  let R := foldl (∩) S others in
  let sec := [Acquire name; Snapshot name; Release name] in
  (forall x, x ∈ R <-> x ∈ S /\ forall o, o ∈ others -> x ∈ o) /\
  intersection loads self others w = (Return R, w, sec) /\
  __and__ loads self other w = (Return (S ∩ other), w, sec) /\
  exists w',
    intersectionUpdate dumps loads self others w = (Return tt, w', sec) /\
    live w' self name /\ stored loads w' self R.
Proof.
  intros Hlive Hst R sec.
  split; [intros x; apply elem_of_foldl_intersection|].
  split; [exact (query_run (fun data => foldl (∩) data others) w self name S Hlive Hst)|].
  split; [exact (query_run (fun data => foldl (∩) data [other]) w self name S Hlive Hst)|].
  destruct (mutate_run dumps loads loads_dumps dumps_end
              (fun data => foldl (∩) data others) w self name S Hlive Hst)
    as (w' & Hrun & Hlive' & Hst' & _).
  exists w'. split; [exact Hrun|]. split; assumption.
Qed.

(** X5: on a live handle storing [S], [difference(others...)] returns the
    elements of [S] that are in none of [others] and leaves the world as
    it is, [s - other] returns [S ∖ other], and
    [differenceUpdate(others...)] stores the set [difference] returns. *)
Theorem difference_spec w self name S others other :
  live w self name -> stored loads w self S ->
  let R := foldl (∖) S others in
  let sec := [Acquire name; Snapshot name; Release name] in
  (forall x, x ∈ R <-> x ∈ S /\ forall o, o ∈ others -> x ∉ o) /\
  difference loads self others w = (Return R, w, sec) /\
  __sub__ loads self other w = (Return (S ∖ other), w, sec) /\
  exists w',
    differenceUpdate dumps loads self others w = (Return tt, w', sec) /\
    live w' self name /\ stored loads w' self R.
Proof.
  intros Hlive Hst R sec.
  split; [intros x; apply elem_of_foldl_difference|].
  split; [exact (query_run (fun data => foldl (∖) data others) w self name S Hlive Hst)|].
  split; [exact (query_run (fun data => foldl (∖) data [other]) w self name S Hlive Hst)|].
  destruct (mutate_run dumps loads loads_dumps dumps_end
              (fun data => foldl (∖) data others) w self name S Hlive Hst)
    as (w' & Hrun & Hlive' & Hst' & _).
  exists w'. split; [exact Hrun|]. split; assumption.
Qed.

(** X6: on a live handle storing [S], [symmetricDifference(other)] and
    [s ^ other] return the elements that are in exactly one of [S] and
    [other], [symmetricDifferenceUpdate(other)] stores that set, and
    applying it a second time with the same [other] stores [S] again. *)
Theorem symmetric_difference_spec w self name S other :
  live w self name -> stored loads w self S ->
  let R := symmetric_difference S other in
  let sec := [Acquire name; Snapshot name; Release name] in
  (forall x, x ∈ R <-> (x ∈ S /\ x ∉ other) \/ (x ∈ other /\ x ∉ S)) /\
  symmetricDifference loads self other w = (Return R, w, sec) /\
  __xor__ loads self other w = (Return R, w, sec) /\
  exists w' w'',
    symmetricDifferenceUpdate dumps loads self other w = (Return tt, w', sec) /\
    stored loads w' self R /\
    symmetricDifferenceUpdate dumps loads self other w' = (Return tt, w'', sec) /\
    live w'' self name /\ stored loads w'' self S.
Proof.
  intros Hlive Hst R sec.
  split.
  { intros x. apply elem_of_symmetric_difference. }
  split; [exact (query_run (fun data => symmetric_difference data other) w self name S Hlive Hst)|].
  split; [exact (query_run (fun data => symmetric_difference data other) w self name S Hlive Hst)|].
  destruct (mutate_run dumps loads loads_dumps dumps_end
              (fun data => symmetric_difference data other) w self name S Hlive Hst)
    as (w' & Hrun & Hlive' & Hst' & _).
  destruct (mutate_run dumps loads loads_dumps dumps_end
              (fun data => symmetric_difference data other) w' self name _ Hlive' Hst')
    as (w'' & Hrun' & Hlive'' & Hst'' & _).
  rewrite symmetric_difference_twice in Hst''.
  exists w', w''. repeat (split; [assumption|]). exact Hst''.
Qed.

(** X7: on a live handle storing [S], the queries answer about [S] from
    one snapshot and leave the world as it is: membership, the number of
    elements, a duplicate-free listing of exactly the elements of [S], a
    copy, and the disjointness, subset and superset tests (with [<=] and
    [>=]). *)
Theorem queries_spec w self name S x other :
  live w self name -> stored loads w self S ->
  let sec := [Acquire name; Snapshot name; Release name] in
  __contains__ loads self x w = (Return (bool_decide (x ∈ S)), w, sec) /\
  __len__ loads self w = (Return (Z.of_nat (size S)), w, sec) /\
  (exists l, __iter__ loads self w = (Return l, w, sec) /\
             NoDup l /\ (forall y, y ∈ l <-> y ∈ S) /\
             len l = Z.of_nat (size S)) /\
  copy loads self w = (Return S, w, sec) /\
  isDisjoint loads self other w = (Return (bool_decide (S ## other)), w, sec) /\
  isSubset loads self other w = (Return (bool_decide (S ⊆ other)), w, sec) /\
  __le__ loads self other w = (Return (bool_decide (S ⊆ other)), w, sec) /\
  isSuperset loads self other w = (Return (bool_decide (other ⊆ S)), w, sec) /\
  __ge__ loads self other w = (Return (bool_decide (other ⊆ S)), w, sec).
Proof.
  intros Hlive Hst sec.
  split; [exact (query_run (fun data => bool_decide (x ∈ data)) w self name S Hlive Hst)|].
  split; [exact (query_run (fun data => Z.of_nat (size data)) w self name S Hlive Hst)|].
  split.
  { exists (elements S).
    split; [exact (query_run (fun data => elements data) w self name S Hlive Hst)|].
    split; [apply NoDup_elements|]. split; [intros y; apply elem_of_elements|].
    reflexivity. }
  split; [exact (query_run (fun data => data) w self name S Hlive Hst)|].
  split; [exact (query_run (fun data => bool_decide (data ## other)) w self name S Hlive Hst)|].
  split; [exact (query_run (fun data => bool_decide (data ⊆ other)) w self name S Hlive Hst)|].
  split; [exact (query_run (fun data => bool_decide (data ⊆ other)) w self name S Hlive Hst)|].
  split; [exact (query_run (fun data => bool_decide (other ⊆ data)) w self name S Hlive Hst)|].
  exact (query_run (fun data => bool_decide (other ⊆ data)) w self name S Hlive Hst).
Qed.

(** X8: on a live handle storing [S], [s == other] for a plain set takes
    one snapshot and returns whether [S] equals [other], [s != other]
    returns the negation, and for an operand that is neither a set nor a
    [RememorySet] the comparison is [False] without taking the lock or
    reading the segment. *)
Theorem eq_set_spec w self name S other :
  live w self name -> stored loads w self S ->
  let sec := [Acquire name; Snapshot name; Release name] in
  __eq__ loads self (OSet other) w = (Return (bool_decide (S = other)), w, sec) /\
  __ne__ loads self (OSet other) w = (Return (negb (bool_decide (S = other))), w, sec) /\
  __eq__ loads self OOther w = (Return false, w, []) /\
  __ne__ loads self OOther w = (Return true, w, []).
Proof.
  intros Hlive Hst sec.
  assert (Heq : __eq__ loads self (OSet other) w =
                (Return (bool_decide (S = other)), w, sec))
    by exact (query_run (fun data => bool_decide (data = other)) w self name S Hlive Hst).
  split; [exact Heq|]. split; [|split; reflexivity].
  unfold __ne__. erewrite bind_eq by exact Heq. reflexivity.
Qed.

(** X9: on a live handle storing [S], [s < other] is [True] exactly when
    [S] is a subset of [other] and differs from it; it takes a second
    critical section (a second snapshot) only when the subset test
    succeeded.  [s > other] does the same with the superset test. *)
Theorem lt_gt_spec w self name S other :
  live w self name -> stored loads w self S ->
  let sec := [Acquire name; Snapshot name; Release name] in
  __lt__ loads self other w =
    (Return (bool_decide (S ⊆ other) && negb (bool_decide (S = other))), w,
     if bool_decide (S ⊆ other) then sec ++ sec else sec) /\
  __gt__ loads self other w =
    (Return (bool_decide (other ⊆ S) && negb (bool_decide (S = other))), w,
     if bool_decide (other ⊆ S) then sec ++ sec else sec) /\
  (bool_decide (S ⊆ other) && negb (bool_decide (S = other)) = true <->
   S ⊆ other /\ S <> other).
Proof.
  intros Hlive Hst sec.
  assert (Hne : __ne__ loads self (OSet other) w =
                (Return (negb (bool_decide (S = other))), w, sec)).
  { unfold __ne__.
    erewrite bind_eq
      by exact (query_run (fun data => bool_decide (data = other)) w self name S Hlive Hst).
    reflexivity. }
  split; [|split].
  - unfold __lt__, __le__.
    erewrite bind_eq
      by exact (query_run (fun data => bool_decide (data ⊆ other)) w self name S Hlive Hst).
    destruct (bool_decide (S ⊆ other)); [rewrite Hne|]; reflexivity.
  - unfold __gt__, __ge__.
    erewrite bind_eq
      by exact (query_run (fun data => bool_decide (other ⊆ data)) w self name S Hlive Hst).
    destruct (bool_decide (other ⊆ S)); [rewrite Hne|]; reflexivity.
  - rewrite andb_true_iff, negb_true_iff, bool_decide_eq_true, bool_decide_eq_false.
    reflexivity.
Qed.

(** ** Read-only operations *)












(** ** Handles side by side *)

(** A handle reads the same set in two worlds that agree on its object and
    on the segment it maps. *)
Lemma stored_frame w w' r S :
  objs w' !! r = objs w !! r ->
  (forall h shm seg, objs w !! r = Some h -> _shm h = Some shm ->
     shm_buf shm = Some seg -> shm_mem w' !! seg = shm_mem w !! seg) ->
  stored loads w r S -> stored loads w' r S.
Proof.
  intros Ho Hm. unfold stored. rewrite !readData_cases, Ho.
  destruct (objs w !! r) as [h|] eqn:E; [|auto].
  destruct (_shm h) as [shm|] eqn:Es; [|auto].
  destruct (shm_buf shm) as [seg|] eqn:Eb; [|auto].
  rewrite (Hm h shm seg eq_refl Es Eb). auto.
Qed.

Lemma live_frame w w' r n :
  objs w' !! r = objs w !! r ->
  (forall h shm seg, objs w !! r = Some h -> _shm h = Some shm ->
     shm_buf shm = Some seg -> shm_mem w' !! seg = shm_mem w !! seg) ->
  (is_Some (shm_names w !! n) -> is_Some (shm_names w' !! n)) ->
  live w r n -> live w' r n.
Proof.
  intros Ho Hm Hn (h & shm & seg & buf & Hobj & Hname & Hs & Hsn & Hb & Hmem & Hsz & Hl).
  exists h, shm, seg, buf. rewrite Ho, (Hm h shm seg Hobj Hs Hb). auto 10.
Qed.

(** X11: [close()] on a live handle drops only that handle's mapping:
    names and segments are as before and every other live handle still
    reads its set; through the closed handle a read raises [TypeError], so
    does [add], and a second [close()] changes nothing. *)
Theorem close_spec w self name x :
  live w self name ->
  exists w',
    close (T:=T) self w = (Return tt, w', []) /\
    shm_names w' = shm_names w /\ shm_mem w' = shm_mem w /\
    _readData loads self w' = (Raise TypeError, w', []) /\
    add dumps loads self x w' = (Raise TypeError, w', [Acquire name; Release name]) /\
    close (T:=T) self w' = (Return tt, w', []) /\
    forall r n S', r <> self -> live w r n -> stored loads w r S' ->
      live w' r n /\ stored loads w' r S'.
Proof.
  intros (h & shm & seg & buf & Ho & Hn & Hs & Hsn & Hb & Hm & Hsz & Hl).
  set (f := fun h0 : RememorySet =>
              mkSet (_name h0) (_size h0) (Some (SharedMemory_close shm))).
  set (w' := mkWorld (shm_names w) (shm_mem w) (alter f self (objs w))).
  assert (Ho' : objs w' !! self = Some (f h))
    by (simpl; rewrite list_lookup_alter_eq, Ho; reflexivity).
  assert (Hr : _readData loads self w' = (Raise TypeError, w', [])).
  { rewrite readData_cases, Ho'. reflexivity. }
  exists w'. split; [|split; [reflexivity|split; [reflexivity|split; [exact Hr|split; [|split]]]]].
  - unfold close. erewrite bind_eq by (apply get_obj_run; exact Ho).
    rewrite Hs. reflexivity.
  - unfold add, locked. erewrite bind_eq by (apply get_obj_run; exact Ho').
    unfold with_lock. erewrite bind_raise by exact Hr.
    simpl. rewrite Hn. reflexivity.
  - unfold close. erewrite bind_eq by (apply get_obj_run; exact Ho').
    simpl. unfold set_shm, w'. simpl. rewrite list_alter_alter_eq. reflexivity.
  - intros r n S' Hne Hlive Hst.
    assert (Hor : objs w' !! r = objs w !! r)
      by (simpl; apply list_lookup_alter_ne; congruence).
    split.
    + apply (live_frame w w' r n Hor); auto.
    + apply (stored_frame w w' r S' Hor); auto.
Qed.

Lemma mutate_fits_run (f : gset T -> gset T) w self h shm seg buf S :
  objs w !! self = Some h -> _shm h = Some shm ->
  shm_name shm = _name h -> shm_buf shm = Some seg ->
  shm_mem w !! seg = Some buf -> shm_size shm = len buf ->
  stored loads w self S -> len (dumps (f S)) <= len buf ->
  locked self (obj <- _readData loads self ;;
                 data <- the_set obj ;;
                 _writeData dumps self (f data)) w =
    (Return tt,
     with_segment w seg (dumps (f S) ++ zeros (len buf - len (dumps (f S)))),
     [Acquire (_name h); Snapshot (_name h); Release (_name h)]).
Proof.
  intros Ho Hs Hn Hb Hm Hsz Hst Hfit.
  pose proof (read_run loads _ _ _ _ _ _ Ho Hs Hb Hm) as Hr.
  unfold stored, outcome_of in Hst. rewrite Hr in Hst. cbn [fst] in Hst.
  rewrite Hst in Hr.
  unfold locked. erewrite bind_eq by (apply get_obj_run; exact Ho).
  unfold with_lock. erewrite bind_eq by exact Hr.
  erewrite bind_eq by apply the_set_run.
  rewrite (write_fits_run dumps _ _ _ _ _ _ _ Ho Hs Hb Hm Hsz Hfit), Hn.
  reflexivity.
Qed.

Lemma mutate_grow_run (f : gset T -> gset T) w self h shm seg buf S :
  objs w !! self = Some h -> _shm h = Some shm ->
  shm_name shm = _name h -> shm_buf shm = Some seg ->
  shm_mem w !! seg = Some buf -> shm_size shm = len buf ->
  is_Some (shm_names w !! _name h) ->
  stored loads w self S -> len buf < len (dumps (f S)) ->
  locked self (obj <- _readData loads self ;;
                 data <- the_set obj ;;
                 _writeData dumps self (f data)) w =
    (Return tt,
     regrown w self (_name h) (Z.max (len (dumps (f S))) (len buf * 2))
             (dumps (f S) ++
              zeros (Z.max (len (dumps (f S))) (len buf * 2) - len (dumps (f S)))),
     [Acquire (_name h); Snapshot (_name h); Release (_name h)]).
Proof.
  intros Ho Hs Hn Hb Hm Hsz Hl Hst Hbig.
  pose proof (read_run loads _ _ _ _ _ _ Ho Hs Hb Hm) as Hr.
  unfold stored, outcome_of in Hst. rewrite Hr in Hst. cbn [fst] in Hst.
  rewrite Hst in Hr.
  unfold locked. erewrite bind_eq by (apply get_obj_run; exact Ho).
  unfold with_lock. erewrite bind_eq by exact Hr.
  erewrite bind_eq by apply the_set_run.
  rewrite (write_grow_run dumps w self h shm (f S) Ho Hs Hn);
    [|rewrite Hsz; apply len_nonneg|exact Hl|rewrite Hsz; exact Hbig].
  cbv zeta. rewrite Hsz, Hn. reflexivity.
Qed.

(** X12: two handles that map the segment their name is linked to see
    each other's writes while the encoding fits the capacity: after
    [add(x)] through one of them, both read [S] with [x] added. *)
Theorem shared_segment_visible w self r name S x c :
  current w self name -> current w r name ->
  stored loads w self S -> capacity w self = Some c ->
  len (dumps ({[x]} ∪ S)) <= c ->
  exists w',
    add dumps loads self x w =
      (Return tt, w', [Acquire name; Snapshot name; Release name]) /\
    stored loads w' self ({[x]} ∪ S) /\
    stored loads w' r ({[x]} ∪ S) /\
    current w' r name.
Proof.
  intros (h & shm & seg & buf & Ho & Hn & Hs & Hsn & Hb & Hm & Hsz & Hl)
         (hr & shmr & segr & bufr & Hor & Hnr & Hsr & Hsnr & Hbr & Hmr & Hszr & Hlr)
         Hst Hc Hfit.
  assert (segr = seg) as -> by congruence.
  assert (bufr = buf) as -> by congruence.
  unfold capacity in Hc. rewrite Ho, Hs in Hc. injection Hc as <-.
  rewrite Hsz in Hfit.
  assert (Hlt : (seg < length (shm_mem w))%nat) by (eapply lookup_lt_Some; eauto).
  set (bs := dumps ({[x]} ∪ S) ++ zeros (len buf - len (dumps ({[x]} ∪ S)))).
  assert (Hlen : len bs = len buf).
  { subst bs. rewrite len_app, len_zeros.
    pose proof (len_nonneg (dumps ({[x]} ∪ S))). lia. }
  assert (Hm' : shm_mem (with_segment w seg bs) !! seg = Some bs)
    by (simpl; apply list_lookup_insert_eq; exact Hlt).
  exists (with_segment w seg bs).
  split; [|split; [|split]].
  - rewrite <- Hn.
    apply (mutate_fits_run (fun data => {[x]} ∪ data) w self h shm seg buf S);
      auto; congruence.
  - unfold stored.
    rewrite (read_run loads (with_segment w seg bs) _ _ _ _ _ Ho Hs Hb Hm'). simpl.
    subst bs. rewrite (decode_written dumps loads loads_dumps dumps_end). reflexivity.
  - unfold stored.
    rewrite (read_run loads (with_segment w seg bs) _ _ _ _ _ Hor Hsr Hbr Hm'). simpl.
    subst bs. rewrite (decode_written dumps loads loads_dumps dumps_end). reflexivity.
  - exists hr, shmr, seg, bs. repeat (split; [assumption|]).
    split; [congruence|]. exact Hlr.
Qed.

(** X13: when [add(x)] through one handle outgrows the segment, the name
    is linked to a new segment that only that handle maps: another handle
    that was attached before still maps the old segment and still reads
    [S], without [x]; it is no longer current. *)
Theorem growth_leaves_others_stale w self r name S x c :
  current w self name -> current w r name -> r <> self ->
  stored loads w self S -> capacity w self = Some c ->
  c < len (dumps ({[x]} ∪ S)) ->
  exists w',
    add dumps loads self x w =
      (Return tt, w', [Acquire name; Snapshot name; Release name]) /\
    current w' self name /\
    stored loads w' self ({[x]} ∪ S) /\
    live w' r name /\
    stored loads w' r S /\
    ~ current w' r name.
Proof.
  intros (h & shm & seg & buf & Ho & Hn & Hs & Hsn & Hb & Hm & Hsz & Hl)
         (hr & shmr & segr & bufr & Hor & Hnr & Hsr & Hsnr & Hbr & Hmr & Hszr & Hlr)
         Hne Hst Hc Hbig.
  assert (segr = seg) as -> by congruence.
  assert (bufr = buf) as -> by congruence.
  unfold capacity in Hc. rewrite Ho, Hs in Hc. injection Hc as <-.
  rewrite Hsz in Hbig.
  assert (Hlt : (seg < length (shm_mem w))%nat) by (eapply lookup_lt_Some; eauto).
  set (v := {[x]} ∪ S) in *.
  set (newSize := Z.max (len (dumps v)) (len buf * 2)).
  set (bs := dumps v ++ zeros (newSize - len (dumps v))).
  set (w' := regrown w self (_name h) newSize bs).
  set (new := mkShm (_name h) newSize (Some (length (shm_mem w)))).
  assert (Ho' : objs w' !! self = Some (mkSet (_name h) (_size h) (Some new)))
    by (simpl; rewrite list_lookup_alter_eq, Ho; reflexivity).
  assert (Hm' : shm_mem w' !! length (shm_mem w) = Some bs)
    by (simpl; apply list_lookup_middle; reflexivity).
  assert (Hor' : objs w' !! r = Some hr)
    by (simpl; rewrite list_lookup_alter_ne by congruence; exact Hor).
  assert (Hmr' : shm_mem w' !! seg = Some buf)
    by (simpl; rewrite lookup_app_l by exact Hlt; exact Hm).
  assert (Hl' : shm_names w' !! name = Some (length (shm_mem w)))
    by (simpl; rewrite Hn; apply lookup_insert_eq).
  assert (Hstr : stored loads w r S).
  { unfold stored in *.
    rewrite (read_run loads _ _ _ _ _ _ Ho Hs Hb Hm) in Hst.
    rewrite (read_run loads _ _ _ _ _ _ Hor Hsr Hbr Hmr). exact Hst. }
  exists w'. split; [|split; [|split; [|split; [|split]]]].
  - rewrite <- Hn.
    apply (mutate_grow_run (fun data => {[x]} ∪ data) w self h shm seg buf S);
      auto; try congruence. rewrite Hn, Hl. eauto.
  - exists (mkSet (_name h) (_size h) (Some new)), new, (length (shm_mem w)), bs.
    split; [exact Ho'|]. split; [exact Hn|]. split; [reflexivity|].
    split; [exact Hn|]. split; [reflexivity|]. split; [exact Hm'|].
    split; [|exact Hl']. simpl. subst bs. rewrite len_app, len_zeros. lia.
  - unfold stored.
    rewrite (read_run loads _ _ _ new _ _ Ho' eq_refl eq_refl Hm'). simpl.
    subst bs. rewrite (decode_written dumps loads loads_dumps dumps_end). reflexivity.
  - exists hr, shmr, seg, buf. repeat (split; [assumption|]). rewrite Hl'. eauto.
  - unfold stored in *.
    rewrite (read_run loads _ _ _ _ _ _ Hor' Hsr Hbr Hmr').
    rewrite (read_run loads _ _ _ _ _ _ Hor Hsr Hbr Hmr) in Hstr. exact Hstr.
  - intros (h2 & shm2 & seg2 & buf2 & Ho2 & _ & Hs2 & _ & Hb2 & _ & _ & Hl2).
    assert (h2 = hr) as -> by congruence.
    assert (shm2 = shmr) as -> by congruence.
    assert (seg2 = seg) as -> by congruence.
    rewrite Hl' in Hl2. injection Hl2 as E. lia.
Qed.

(** ** Unlinking and constructing *)

Lemma handles_ok_created w name size :
  handles_ok w -> 0 < size -> handles_ok (created w name size).
Proof.
  intros Hh Hs i h Ho shm Hshm. simpl in Ho.
  apply lookup_app_Some in Ho as [Ho|(_ & Ho)].
  - destruct (Hh i h Ho shm Hshm) as (Hnm & Hz & Hmap).
    split; [exact Hnm|]. split; [exact Hz|].
    intros seg Hb. destruct (Hmap _ Hb) as (buf & Hm & Hsz).
    exists buf. split; [|exact Hsz]. simpl.
    rewrite lookup_app_l by (eapply lookup_lt_Some; eauto). exact Hm.
  - apply list_lookup_singleton_Some in Ho as (_ & <-).
    simpl in Hshm. injection Hshm as <-. simpl.
    split; [reflexivity|]. split; [lia|].
    intros seg Hb. injection Hb as <-.
    exists (zeros size). split; [apply list_lookup_middle; reflexivity|].
    rewrite len_zeros. lia.
Qed.

(** What a write through [self] leaves alone: the other objects, and the
    segments that [self] does not map. *)
Lemma write_frame w self v h shm :
  handles_ok w -> objs w !! self = Some h -> _shm h = Some shm ->
  (forall r, r <> self ->
     objs (world_of (_writeData dumps self v w)) !! r = objs w !! r) /\
  (forall seg, shm_buf shm <> Some seg -> (seg < length (shm_mem w))%nat ->
     shm_mem (world_of (_writeData dumps self v w)) !! seg = shm_mem w !! seg).
Proof.
  intros Hh Ho Hs. rewrite (writeData_cases dumps w self v Hh), Ho, Hs.
  destruct (len (dumps v) >? shm_size shm).
  - cbv zeta. destruct (shm_names w !! _name h); unfold world_of; simpl; split.
    + intros r Hr. apply list_lookup_alter_ne. congruence.
    + intros seg _ Hlt. apply lookup_app_l. exact Hlt.
    + intros r Hr. apply list_lookup_alter_ne. congruence.
    + reflexivity.
  - destruct (shm_buf shm) as [seg0|]; unfold world_of; simpl; split; auto.
    intros seg Hne _. apply list_lookup_insert_ne. congruence.
Qed.

(** X14: [unlink()] through a current handle removes the name and leaves
    the segments alone: the handle still reads its set, a second
    [unlink()] raises [FileNotFoundError], and a constructor on the name
    then creates a new segment whose handle reads the empty set while the
    old handle goes on reading [S]. *)
Theorem unlink_spec w self name S size :
  wf w -> current w self name -> stored loads w self S -> 0 < size ->
  exists w',
    unlink (T:=T) self w = (Return tt, w', []) /\
    shm_names w' !! name = None /\ shm_mem w' = shm_mem w /\
    stored loads w' self S /\
    unlink (T:=T) self w' = (Raise FileNotFoundError, w', []) /\
    exists w'',
      __init__ dumps name size w' = (Return (length (objs w)), w'', []) /\
      stored loads w'' (length (objs w)) ∅ /\
      stored loads w'' self S.
Proof.
  intros [Hh _] (h & shm & seg & buf & Ho & Hn & Hs & Hsn & Hb & Hm & Hsz & Hl)
         Hst Hsize.
  set (w' := mkWorld (delete name (shm_names w)) (shm_mem w) (objs w)).
  assert (Hl' : shm_names w' !! name = None) by (simpl; apply lookup_delete_eq).
  assert (Hlt : (seg < length (shm_mem w))%nat) by (eapply lookup_lt_Some; eauto).
  assert (Hself : (self < length (objs w))%nat) by (eapply lookup_lt_Some; eauto).
  exists w'. split; [|split; [exact Hl'|split; [reflexivity|split; [|split]]]].
  - unfold unlink. erewrite bind_eq by (apply get_obj_run; exact Ho).
    rewrite Hs. unfold SharedMemory_unlink. rewrite Hsn, Hl. reflexivity.
  - apply (stored_frame w w' self S); auto.
  - unfold unlink. erewrite bind_eq by (apply (get_obj_run w'); exact Ho).
    rewrite Hs. unfold SharedMemory_unlink. rewrite Hsn, Hl'. reflexivity.
  - pose proof (created_current w' name size Hsize) as Hc.
    destruct (live_write dumps loads loads_dumps dumps_end _ _ _ ∅
                (current_live _ _ _ Hc)) as (w'' & Hw & _ & Hr & _).
    assert (Hh' : handles_ok (created w' name size))
      by (apply handles_ok_created; [exact Hh|exact Hsize]).
    destruct (write_frame (created w' name size) (length (objs w')) ∅
                (mkSet name size (Some (mkShm name size (Some (length (shm_mem w'))))))
                (mkShm name size (Some (length (shm_mem w')))) Hh')
      as [Hfo Hfm].
    { simpl. apply list_lookup_middle. reflexivity. }
    { reflexivity. }
    rewrite Hw in Hfo, Hfm. unfold world_of in Hfo, Hfm. simpl fst in Hfo, Hfm.
    simpl snd in Hfo, Hfm.
    exists w''. split; [|split].
    + rewrite (init_create_run dumps w' name size Hl' Hsize), Hw. reflexivity.
    + unfold stored. simpl in Hr. rewrite Hr. reflexivity.
    + apply (stored_frame (created w' name size) w'' self S).
      * apply Hfo. simpl. lia.
      * intros h0 shm0 seg0 Ho0 Hs0 Hb0.
        simpl in Ho0. rewrite lookup_app_l in Ho0 by exact Hself.
        assert (h0 = h) as -> by congruence.
        assert (shm0 = shm) as -> by congruence.
        assert (seg0 = seg) as -> by congruence.
        apply Hfm; simpl.
        -- intros E. injection E as E. lia.
        -- rewrite length_app. simpl. lia.
      * apply (stored_frame w (created w' name size) self S); [| |exact Hst].
        -- simpl. apply lookup_app_l. exact Hself.
        -- intros h0 shm0 seg0 Ho0 Hs0 Hb0.
           assert (h0 = h) as -> by congruence.
           assert (shm0 = shm) as -> by congruence.
           assert (seg0 = seg) as -> by congruence.
           simpl. apply lookup_app_l. exact Hlt.
Qed.

(** X15: a constructor on a name that is linked attaches whatever [size]
    it is given (zero and negative sizes included): names and segments
    are untouched, the handle's capacity is the length of the segment and
    it reads what the segment decodes to.  On a free name a size that is
    not positive raises [ValueError] and creates nothing. *)
Theorem open_existing_or_invalid w name size :
  (forall seg buf,
     shm_names w !! name = Some seg -> shm_mem w !! seg = Some buf ->
     exists w',
       __init__ dumps name size w = (Return (length (objs w)), w', []) /\
       shm_names w' = shm_names w /\ shm_mem w' = shm_mem w /\
       capacity w' (length (objs w)) = Some (len buf) /\
       current w' (length (objs w)) name /\
       outcome_of (_readData loads (length (objs w)) w') = decode loads buf) /\
  (shm_names w !! name = None -> size <= 0 ->
   exists w',
     __init__ dumps name size w = (Raise ValueError, w', []) /\
     shm_names w' = shm_names w /\ shm_mem w' = shm_mem w).
Proof.
  split.
  - intros seg buf Hl Hm.
    set (new := mkShm name (len (default [] (shm_mem w !! seg))) (Some seg)).
    assert (Ho : objs (attached w name size seg) !! length (objs w) =
                 Some (mkSet name size (Some new)))
      by (simpl; apply list_lookup_middle; reflexivity).
    exists (attached w name size seg).
    split; [apply init_attach_run; exact Hl|].
    split; [reflexivity|]. split; [reflexivity|].
    split; [|split].
    + unfold capacity. rewrite Ho. simpl. rewrite Hm. reflexivity.
    + exists (mkSet name size (Some new)), new, seg, buf.
      split; [exact Ho|]. repeat (split; [reflexivity|]).
      split; [exact Hm|]. split; [|exact Hl]. simpl. rewrite Hm. reflexivity.
    + rewrite (read_run loads (attached w name size seg) _ _ new seg buf Ho
                 eq_refl eq_refl Hm).
      reflexivity.
  - intros Hl Hs. eexists. split; [apply init_size_run; assumption|].
    split; reflexivity.
Qed.


(** ** Lock discipline *)

Lemma lock_check_app held t1 held1 t2 :
  lock_check held t1 = Some held1 ->
  lock_check held (t1 ++ t2) = lock_check held1 t2.
Proof.
  revert held. induction t1 as [|e t1 IH]; intros held Hc; simpl in *.
  - injection Hc as ->. reflexivity.
  - destruct e as [n|n|n].
    + apply IH. exact Hc.
    + destruct held as [|m held']; [discriminate|].
      destruct (String.eqb n m); [|discriminate]. apply IH. exact Hc.
    + destruct (existsb (String.eqb n) held); [|discriminate]. apply IH. exact Hc.
Qed.

Lemma alter_keeps_name (g : RememorySet -> RememorySet) (self : nat)
    (l : list RememorySet) (i : nat) h' :
  (forall h, _name (g h) = _name h) ->
  alter g self l !! i = Some h' ->
  exists h, l !! i = Some h /\ _name h' = _name h.
Proof.
  intros Hg Ho. destruct (decide (self = i)) as [->|Hne].
  - rewrite list_lookup_alter_eq in Ho.
    destruct (l !! i) as [h0|]; [|discriminate].
    simpl in Ho. injection Ho as <-. eauto.
  - rewrite list_lookup_alter_ne in Ho by exact Hne. eauto.
Qed.

Ltac names_kept Hn :=
  let i := fresh "i" in
  let h0 := fresh "h" in
  let Hi := fresh "Hi" in
  let E := fresh "E" in
  intros i h0 Hi; simpl in Hi;
  apply alter_keeps_name in Hi as (? & Hi & E); [|intros ?; reflexivity];
  rewrite E; apply Hn; exact Hi.

Lemma similar_refl w : similar loads w w.
Proof. split; [reflexivity|]. split; [reflexivity|]. apply seg_sim_refl. Qed.

Lemma disciplined_ret {A} f held (a : A) : disciplined f held (ret (T:=T) a).
Proof. intros w Hw Hn. auto. Qed.

Lemma disciplined_raise {A} f held e : disciplined f held (raise (T:=T) (A:=A) e).
Proof. intros w Hw Hn. auto. Qed.

Lemma disciplined_bind {A B} f held (m : M A) (k : A -> M B) :
  disciplined f held m -> (forall a, disciplined f held (k a)) ->
  disciplined f held (bind m k).
Proof.
  intros Hm Hk w Hw Hn. destruct (Hm w Hw Hn) as (Hw1 & Hn1 & Hc1).
  unfold bind. unfold world_of, trace_of in *.
  destruct (m w) as [[[a|e] w1] t1]; simpl in *; [|auto].
  destruct (Hk a w1 Hw1 Hn1) as (Hw2 & Hn2 & Hc2).
  unfold world_of, trace_of in *.
  destruct (k a w1) as [[r w2] t2]; simpl in *.
  split; [exact Hw2|]. split; [exact Hn2|].
  rewrite (lock_check_app _ _ _ _ Hc1). exact Hc2.
Qed.

Lemma disciplined_with_lock {A} f held name (body : M A) :
  disciplined f (name :: held) body -> disciplined f held (with_lock name body).
Proof.
  intros Hb w Hw Hn. destruct (Hb w Hw Hn) as (Hw1 & Hn1 & Hc1).
  unfold with_lock. unfold world_of, trace_of in *.
  destruct (body w) as [[r w1] t]; simpl in *.
  split; [exact Hw1|]. split; [exact Hn1|].
  rewrite (lock_check_app _ _ _ _ Hc1). simpl.
  rewrite String.eqb_refl. reflexivity.
Qed.

Lemma disciplined_locked {A} f held self (body : M A) :
  (forall n, f self = Some n -> disciplined f (n :: held) body) ->
  disciplined f held (locked self body).
Proof.
  intros Hb w Hw Hn. unfold locked, bind, get_obj.
  destruct (objs w !! self) as [h|] eqn:Ho; [|simpl; auto].
  pose proof (disciplined_with_lock f held (_name h) body (Hb _ (Hn _ _ Ho)) w Hw Hn)
    as (Hw1 & Hn1 & Hc1).
  unfold world_of, trace_of in *.
  destruct (with_lock (_name h) body w) as [[r w1] t]; simpl in *. auto.
Qed.

Lemma disciplined_fmap {A B} f held (g : A -> B) (m : M A) :
  disciplined f held m -> disciplined f held (fmap_M g m).
Proof.
  intros Hm. apply disciplined_bind; [exact Hm|]. intros a. apply disciplined_ret.
Qed.

Lemma disciplined_readData f held self :
  (forall n, f self = Some n -> existsb (String.eqb n) held = true) ->
  disciplined f held (_readData loads self).
Proof.
  intros Hheld w Hw Hn. rewrite readData_cases.
  destruct (objs w !! self) as [h|] eqn:Ho; [|simpl; auto].
  destruct (_shm h) as [shm|] eqn:Hs; [|simpl; auto].
  destruct (shm_buf shm) as [seg|]; [|simpl; auto].
  unfold world_of, trace_of. simpl.
  destruct (proj1 Hw _ _ Ho _ Hs) as (Hname & _).
  rewrite Hname, (Hheld _ (Hn _ _ Ho)). auto.
Qed.

Lemma disciplined_the_set f held obj : disciplined f held (the_set (T:=T) obj).
Proof. destruct obj; [apply disciplined_ret|apply disciplined_raise]. Qed.

Lemma disciplined_writeData f held self v :
  disciplined f held (_writeData dumps self v).
Proof.
  intros w Hw Hn. split; [apply wf_writeData; exact Hw|].
  rewrite (writeData_cases dumps w self v (proj1 Hw)).
  destruct (objs w !! self) as [h|] eqn:Ho; [|simpl; auto].
  destruct (_shm h) as [shm|] eqn:Hs; [|simpl; auto].
  destruct (len (dumps v) >? shm_size shm).
  - cbv zeta. destruct (shm_names w !! _name h); unfold world_of, trace_of; simpl;
      (split; [|reflexivity]).
    + names_kept Hn.
    + names_kept Hn.
  - destruct (shm_buf shm); unfold world_of, trace_of; simpl; auto.
Qed.

Lemma disciplined_close f held self : disciplined f held (close (T:=T) self).
Proof.
  intros w Hw Hn.
  split; [exact (proj1 (proj2 (proj2 (respects_close loads self w w Hw (similar_refl w)))))|].
  unfold close, bind, get_obj.
  destruct (objs w !! self) as [h|] eqn:Ho; [|simpl; auto].
  destruct (_shm h) as [shm|] eqn:Hs; [|simpl; auto].
  unfold world_of, trace_of. simpl. split; [|reflexivity].
  names_kept Hn.
Qed.

Lemma disciplined_unlink f held self : disciplined f held (unlink (T:=T) self).
Proof.
  intros w Hw Hn.
  split; [exact (proj1 (proj2 (proj2 (respects_unlink loads self w w Hw (similar_refl w)))))|].
  unfold unlink, bind, get_obj.
  destruct (objs w !! self) as [h|] eqn:Ho; [|simpl; auto].
  destruct (_shm h) as [shm|] eqn:Hs; [|simpl; auto].
  unfold SharedMemory_unlink.
  destruct (shm_names w !! shm_name shm); unfold world_of, trace_of; simpl; auto.
Qed.

Ltac name_held :=
  let n' := fresh "n" in
  let Hf := fresh "Hf" in
  intros n' Hf; simpl;
  repeat match goal with
         | H1 : ?f ?i = Some ?a, H2 : ?f ?i = Some ?b |- _ =>
             rewrite H1 in H2; injection H2 as H2; subst
         end;
  rewrite ?String.eqb_refl, ?orb_true_r; reflexivity.

Ltac discipline :=
  repeat first
    [ apply disciplined_ret
    | apply disciplined_raise
    | apply disciplined_readData; name_held
    | apply disciplined_the_set
    | apply disciplined_writeData
    | apply disciplined_close
    | apply disciplined_unlink
    | apply disciplined_locked; intros ? ?
    | apply disciplined_fmap
    | apply disciplined_bind; [|intros ?]
    | match goal with
      | |- disciplined _ _ (if ?c then _ else _) => destruct c
      | |- disciplined _ _ (match ?o with OSet _ => _ | _ => _ end) => destruct o
      end ].

(** X17: in a well-formed world every operation except [__repr__] keeps
    the lock discipline, whether it returns or raises: each lock is
    released, in reverse order of acquisition, and every read of a
    segment happens while the lock of that handle's name is held.
    [__repr__] on a live handle reads the segment without any lock. *)
Theorem locks_disciplined o self w :
  wf w ->
  (o <> Repr -> lock_check [] (trace_of (run dumps loads pick o self w)) = Some []) /\
  (forall name, live w self name ->
     lock_check [] (trace_of (run dumps loads pick Repr self w)) = None).
Proof.
  intros Hw. split.
  - intros Hne.
    assert (Hd : disciplined (fun i => _name <$> objs w !! i) []
                             (run dumps loads pick o self)).
    { destruct o; try (exfalso; apply Hne; reflexivity); unfold run;
        unfold add, remove, discard, pop, clear, update, intersectionUpdate,
          differenceUpdate, symmetricDifferenceUpdate, __contains__, __len__,
          __iter__, copy, isDisjoint, __lt__, __gt__, __le__, __ge__, isSubset,
          isSuperset, __or__, __and__, __sub__, __xor__, union, intersection,
          difference, symmetricDifference, __ne__, __eq__, py_eq;
        discipline. }
    apply Hd; [exact Hw|].
    intros i h Ho. rewrite Ho. reflexivity.
  - intros name Hlive.
    destruct (live_read loads _ _ _ Hlive) as [r Hr].
    destruct Hlive as (h & shm & seg & buf & Ho & Hn & _).
    unfold run, fmap_M, __repr__.
    destruct r as [obj|e].
    + erewrite bind_eq.
      2:{ erewrite bind_eq by (apply get_obj_run; exact Ho).
          erewrite bind_eq by exact Hr. reflexivity. }
      reflexivity.
    + erewrite bind_raise.
      2:{ erewrite bind_eq by (apply get_obj_run; exact Ho).
          erewrite bind_raise by exact Hr. reflexivity. }
      reflexivity.
Qed.

(** ** Adding and removing, and a capacity below the empty encoding *)

Lemma remove_run w self name S x :
  live w self name -> stored loads w self S -> x ∈ S ->
  exists w',
    remove dumps loads self x w =
      (Return tt, w', [Acquire name; Snapshot name; Release name]) /\
    live w' self name /\ stored loads w' self (S ∖ {[x]}).
Proof.
  intros Hlive Hst Hx.
  pose proof (live_stored _ _ _ _ _ Hlive Hst) as Hr.
  destruct (live_write dumps loads loads_dumps dumps_end w self name (S ∖ {[x]}) Hlive)
    as (w' & Hw & Hlive' & Hr' & _).
  destruct Hlive as (h & shm & seg & buf & Ho & Hn & _).
  exists w'. split; [|split; [exact Hlive'|]].
  - unfold remove, locked. erewrite bind_eq by (apply get_obj_run; exact Ho).
    unfold with_lock. erewrite bind_eq by exact Hr.
    erewrite bind_eq by apply the_set_run.
    destruct (decide (x ∈ S)) as [_|Hn']; [|contradiction].
    erewrite bind_eq by reflexivity.
    rewrite Hw, Hn. reflexivity.
  - unfold stored. rewrite Hr'. reflexivity.
Qed.

(** X18: on a live handle storing [S], [add(x)] followed by [remove(x)]
    raises nothing and stores [S] again when [x] was not in [S], and so
    does [remove(x)] followed by [add(x)] when [x] was in [S]. *)
Theorem add_remove_roundtrip w self name S x :
  live w self name -> stored loads w self S ->
  let sec := [Acquire name; Snapshot name; Release name] in
  (x ∉ S ->
   exists w1 w2,
     add dumps loads self x w = (Return tt, w1, sec) /\
     remove dumps loads self x w1 = (Return tt, w2, sec) /\
     live w2 self name /\ stored loads w2 self S) /\
  (x ∈ S ->
   exists w1 w2,
     remove dumps loads self x w = (Return tt, w1, sec) /\
     add dumps loads self x w1 = (Return tt, w2, sec) /\
     live w2 self name /\ stored loads w2 self S).
Proof.
  intros Hlive Hst sec. split; intros Hx.
  - destruct (mutate_run dumps loads loads_dumps dumps_end
                (fun data => {[x]} ∪ data) w self name S Hlive Hst)
      as (w1 & Hadd & Hlive1 & Hst1 & _).
    destruct (remove_run w1 self name _ x Hlive1 Hst1) as (w2 & Hrem & Hlive2 & Hst2).
    { apply elem_of_union_l, elem_of_singleton. reflexivity. }
    exists w1, w2. split; [exact Hadd|]. split; [exact Hrem|].
    split; [exact Hlive2|].
    assert (E : ({[x]} ∪ S) ∖ {[x]} = S).
    { apply set_eq. intros y.
      rewrite elem_of_difference, elem_of_union, elem_of_singleton.
      split; [intros [[->|Hy] Hne]; [contradiction|exact Hy]|].
      intros Hy. split; [auto|]. intros ->. contradiction. }
    rewrite E in Hst2. exact Hst2.
  - destruct (remove_run w self name S x Hlive Hst Hx) as (w1 & Hrem & Hlive1 & Hst1).
    destruct (mutate_run dumps loads loads_dumps dumps_end
                (fun data => {[x]} ∪ data) w1 self name _ Hlive1 Hst1)
      as (w2 & Hadd & Hlive2 & Hst2 & _).
    exists w1, w2. split; [exact Hrem|]. split; [exact Hadd|].
    split; [exact Hlive2|].
    assert (E : {[x]} ∪ S ∖ {[x]} = S).
    { apply set_eq. intros y.
      rewrite elem_of_union, elem_of_difference, elem_of_singleton.
      split; [intros [->|[Hy _]]; assumption|].
      intros Hy. destruct (decide (y = x)) as [->|Hne]; auto. }
    rewrite E in Hst2. exact Hst2.
Qed.

(** X19: when the capacity asked for is positive but smaller than the
    encoding of the empty set, the constructor's first write already
    outgrows the segment it has just created: that segment is left behind
    zero-filled, the name is linked to a second segment of
    [max(len(encoded), 2 * size)] bytes, which is the handle's capacity,
    and the handle reads the empty set. *)
Theorem open_tiny_capacity w name size :
  shm_names w !! name = None -> 0 < size -> size < len (dumps ∅) ->
  let self := length (objs w) in
  let newSize := Z.max (len (dumps ∅)) (size * 2) in
  exists w',
    __init__ dumps name size w = (Return self, w', []) /\
    length (shm_mem w') = (2 + length (shm_mem w))%nat /\
    shm_mem w' !! length (shm_mem w) = Some (zeros size) /\
    shm_names w' !! name = Some (1 + length (shm_mem w))%nat /\
    capacity w' self = Some newSize /\
    stored loads w' self ∅.
Proof.
  intros Hl Hs Hbig self newSize.
  set (c := created w name size).
  set (bs := dumps ∅ ++ zeros (newSize - len (dumps ∅))).
  set (w' := regrown c self name newSize bs).
  set (new := mkShm name newSize (Some (length (shm_mem c)))).
  assert (Hw : _writeData dumps self ∅ c = (Return tt, w', [])).
  { apply (write_grow_run dumps c self
             (mkSet name size (Some (mkShm name size (Some (length (shm_mem w))))))
             (mkShm name size (Some (length (shm_mem w)))) ∅).
    - simpl. apply list_lookup_middle. reflexivity.
    - reflexivity.
    - reflexivity.
    - simpl. lia.
    - simpl. rewrite lookup_insert_eq. eauto.
    - simpl. exact Hbig. }
  assert (Ho' : objs w' !! self = Some (mkSet name size (Some new))).
  { simpl. subst self. rewrite alter_snoc. apply list_lookup_middle. reflexivity. }
  assert (Hm' : shm_mem w' !! length (shm_mem c) = Some bs)
    by (simpl; apply list_lookup_middle; reflexivity).
  exists w'. split; [|split; [|split; [|split; [|split]]]].
  - rewrite (init_create_run dumps w name size Hl Hs). fold c self. rewrite Hw.
    reflexivity.
  - simpl. rewrite !length_app. simpl. lia.
  - simpl. rewrite lookup_app_l by (rewrite length_app; simpl; lia).
    apply list_lookup_middle. reflexivity.
  - simpl. rewrite lookup_insert_eq, length_app. simpl. f_equal. lia.
  - unfold capacity. rewrite Ho'. reflexivity.
  - unfold stored.
    rewrite (read_run loads w' self _ new _ bs Ho' eq_refl eq_refl Hm'). simpl.
    subst bs. rewrite (decode_written dumps loads loads_dumps dumps_end). reflexivity.
Qed.

(** ** Capacities only grow *)

Lemma never_shrinks_same {A} r (m : M A) :
  (forall w, world_of (m w) = w) -> never_shrinks r m.
Proof. intros Hm w Hw. rewrite Hm. split; [exact Hw|]. intros c Hc. exists c. split; [exact Hc|lia]. Qed.

Lemma never_shrinks_bind {A B} r (m : M A) (k : A -> M B) :
  never_shrinks r m -> (forall a, never_shrinks r (k a)) ->
  never_shrinks r (bind m k).
Proof.
  intros Hm Hk w Hw. destruct (Hm w Hw) as (Hw1 & Hc1).
  unfold bind. unfold world_of in *.
  destruct (m w) as [[[a|e] w1] t1]; simpl in *; [|auto].
  destruct (Hk a w1 Hw1) as (Hw2 & Hc2). unfold world_of in *.
  destruct (k a w1) as [[r2 w2] t2]; simpl in *.
  split; [exact Hw2|]. intros c Hc.
  destruct (Hc1 c Hc) as (c1 & Hc1' & Hle1).
  destruct (Hc2 c1 Hc1') as (c2 & Hc2' & Hle2).
  exists c2. split; [exact Hc2'|lia].
Qed.

Lemma never_shrinks_with_lock {A} r name (body : M A) :
  never_shrinks r body -> never_shrinks r (with_lock name body).
Proof.
  intros Hb w Hw. specialize (Hb w Hw). unfold with_lock, world_of in *.
  destruct (body w) as [[r1 w1] t]. exact Hb.
Qed.

Lemma never_shrinks_locked {A} r self (body : M A) :
  never_shrinks r body -> never_shrinks r (locked self body).
Proof.
  intros Hb. apply never_shrinks_bind.
  - apply never_shrinks_same. intros w. unfold get_obj.
    destruct (objs w !! self); reflexivity.
  - intros h. apply never_shrinks_with_lock. exact Hb.
Qed.


Lemma never_shrinks_fmap {A B} r (g : A -> B) (m : M A) :
  never_shrinks r m -> never_shrinks r (fmap_M g m).
Proof.
  intros Hm. apply never_shrinks_bind; [exact Hm|].
  intros a. apply never_shrinks_same. reflexivity.
Qed.

Ltac capacity_after_alter self r Ho Hs Hc :=
  unfold capacity in *; simpl;
  destruct (decide (self = r)) as [->|?];
  [ rewrite list_lookup_alter_eq, Ho; simpl; rewrite Ho, Hs in Hc;
    injection Hc as <-; eexists; split; [reflexivity|lia]
  | rewrite list_lookup_alter_ne by assumption; eexists; split; [exact Hc|lia] ].

Lemma never_shrinks_writeData r self v : never_shrinks r (_writeData dumps self v).
Proof.
  intros w Hw. split; [apply wf_writeData; exact Hw|].
  intros c Hc. rewrite (writeData_cases dumps w self v (proj1 Hw)).
  destruct (objs w !! self) as [h|] eqn:Ho; [|exists c; split; [exact Hc|lia]].
  destruct (_shm h) as [shm|] eqn:Hs; [|exists c; split; [exact Hc|lia]].
  destruct (proj1 Hw _ _ Ho _ Hs) as (_ & Hz & _).
  destruct (len (dumps v) >? shm_size shm) eqn:E.
  - cbv zeta. destruct (shm_names w !! _name h); unfold world_of; simpl.
    + capacity_after_alter self r Ho Hs Hc.
    + capacity_after_alter self r Ho Hs Hc.
  - destruct (shm_buf shm); unfold world_of; simpl; exists c; (split; [exact Hc|lia]).
Qed.

Lemma never_shrinks_close r self : never_shrinks r (close (T:=T) self).
Proof.
  intros w Hw.
  split; [exact (proj1 (proj2 (proj2 (respects_close loads self w w Hw (similar_refl w)))))|].
  intros c Hc. unfold close, bind, get_obj.
  destruct (objs w !! self) as [h|] eqn:Ho; [|exists c; split; [exact Hc|lia]].
  destruct (_shm h) as [shm|] eqn:Hs; [|exists c; split; [exact Hc|lia]].
  unfold world_of. simpl. capacity_after_alter self r Ho Hs Hc.
Qed.

Lemma never_shrinks_unlink r self : never_shrinks r (unlink (T:=T) self).
Proof.
  intros w Hw.
  split; [exact (proj1 (proj2 (proj2 (respects_unlink loads self w w Hw (similar_refl w)))))|].
  intros c Hc. unfold unlink, bind, get_obj.
  destruct (objs w !! self) as [h|] eqn:Ho; [|exists c; split; [exact Hc|lia]].
  destruct (_shm h) as [shm|] eqn:Hs; [|exists c; split; [exact Hc|lia]].
  unfold SharedMemory_unlink.
  destruct (shm_names w !! shm_name shm); exists c; (split; [exact Hc|lia]).
Qed.

Lemma never_shrinks_readData r self : never_shrinks r (_readData loads self).
Proof. apply never_shrinks_same. intros w. apply readData_world. Qed.

Lemma never_shrinks_the_set r obj : never_shrinks r (the_set (T:=T) obj).
Proof. apply never_shrinks_same. intros w. destruct obj; reflexivity. Qed.

Lemma never_shrinks_get_obj r self : never_shrinks r (get_obj (T:=T) self).
Proof.
  apply never_shrinks_same. intros w. unfold get_obj.
  destruct (objs w !! self); reflexivity.
Qed.

Lemma never_shrinks_ret {A} r (a : A) : never_shrinks r (ret (T:=T) a).
Proof. apply never_shrinks_same. reflexivity. Qed.

Lemma never_shrinks_raise {A} r e : never_shrinks r (raise (T:=T) (A:=A) e).
Proof. apply never_shrinks_same. reflexivity. Qed.

Ltac no_shrink :=
  repeat first
    [ apply never_shrinks_ret
    | apply never_shrinks_raise
    | apply never_shrinks_readData
    | apply never_shrinks_the_set
    | apply never_shrinks_get_obj
    | apply never_shrinks_writeData
    | apply never_shrinks_close
    | apply never_shrinks_unlink
    | apply never_shrinks_locked
    | apply never_shrinks_fmap
    | apply never_shrinks_bind; [|intros ?]
    | match goal with
      | |- never_shrinks _ (if ?c then _ else _) => destruct c
      | |- never_shrinks _ (match ?o with OSet _ => _ | _ => _ end) => destruct o
      end ].

(** X20: in a well-formed world no operation, through whatever handle,
    makes the capacity ([self._shm.size]) of a handle smaller, whether the
    operation returns or raises: a handle that has a capacity has one
    afterwards, and it is at least the one before. *)
Theorem capacity_never_shrinks o self r w c :
  wf w -> capacity w r = Some c ->
  exists c',
    capacity (world_of (run dumps loads pick o self w)) r = Some c' /\ c <= c'.
Proof.
  intros Hw Hc.
  assert (Hn : never_shrinks r (run dumps loads pick o self)).
  { destruct o; unfold run;
      unfold add, remove, discard, pop, clear, update, intersectionUpdate,
        differenceUpdate, symmetricDifferenceUpdate, __contains__, __len__,
        __iter__, copy, isDisjoint, __lt__, __gt__, __le__, __ge__, isSubset,
        isSuperset, __or__, __and__, __sub__, __xor__, union, intersection,
        difference, symmetricDifference, __ne__, __eq__, py_eq, __repr__;
      no_shrink. }
  exact (proj2 (Hn w Hw) c Hc).
Qed.

(** ** Handles on different segments *)


















End Operations.

(** ** The further properties at work on [set[bool]] *)

Lemma s1_wf : wf BoolPickle.s1.
Proof.
  apply (inv_reachable BoolPickle.dumps BoolPickle.loads BoolPickle.pick
           bool_loads_dumps bool_dumps_end).
  apply reach_run. apply reach_init. apply reach_empty.
Qed.

Lemma pair_wf : wf BoolPickle.pair.
Proof.
  apply (inv_reachable BoolPickle.dumps BoolPickle.loads BoolPickle.pick
           bool_loads_dumps bool_dumps_end).
  apply reach_init. apply reach_run. apply reach_init. apply reach_empty.
Qed.

Lemma add_spec_witness :
  exists w',
    add BoolPickle.dumps BoolPickle.loads 0%nat false BoolPickle.s1 =
      (Return tt, w', [Acquire "s"; Snapshot "s"; Release "s"]) /\
    stored BoolPickle.loads w' 0%nat ({[false]} ∪ {[true]}).
Proof.
  destruct (add_spec BoolPickle.dumps BoolPickle.loads bool_loads_dumps bool_dumps_end
              BoolPickle.s1 0%nat "s" {[true]} false
              ltac:(show_live) ltac:(show_stored)) as (w' & Hr & _ & Hst & _).
  exists w'. split; assumption.
Defined.

Lemma clear_spec_witness :
  exists w',
    clear BoolPickle.dumps 0%nat BoolPickle.garbled =
      (Return tt, w', [Acquire "s"; Release "s"]) /\
    stored BoolPickle.loads w' 0%nat ∅.
Proof.
  destruct (clear_spec BoolPickle.dumps BoolPickle.loads bool_loads_dumps bool_dumps_end
              BoolPickle.garbled 0%nat "s" ltac:(show_live)) as (w' & Hr & _ & Hst).
  exists w'. split; assumption.
Defined.

Lemma update_union_spec_witness :
  union BoolPickle.loads 0%nat [{[false]}] BoolPickle.s1 =
    (Return (foldl (∪) {[true]} [{[false]}]), BoolPickle.s1,
     [Acquire "s"; Snapshot "s"; Release "s"]) /\
  exists w',
    update BoolPickle.dumps BoolPickle.loads 0%nat [{[false]}] BoolPickle.s1 =
      (Return tt, w', [Acquire "s"; Snapshot "s"; Release "s"]) /\
    stored BoolPickle.loads w' 0%nat (foldl (∪) {[true]} [{[false]}]).
Proof.
  destruct (update_union_spec BoolPickle.dumps BoolPickle.loads
              bool_loads_dumps bool_dumps_end
              BoolPickle.s1 0%nat "s" {[true]} [{[false]}] ∅
              ltac:(show_live) ltac:(show_stored))
    as (_ & Hu & _ & w' & Hr & _ & Hst).
  split; [exact Hu|]. exists w'. split; assumption.
Defined.

Lemma intersection_spec_witness :
  exists w',
    intersectionUpdate BoolPickle.dumps BoolPickle.loads 0%nat [{[false]}] BoolPickle.s1 =
      (Return tt, w', [Acquire "s"; Snapshot "s"; Release "s"]) /\
    stored BoolPickle.loads w' 0%nat (foldl (∩) {[true]} [{[false]}]).
Proof.
  destruct (intersection_spec BoolPickle.dumps BoolPickle.loads
              bool_loads_dumps bool_dumps_end
              BoolPickle.s1 0%nat "s" {[true]} [{[false]}] ∅
              ltac:(show_live) ltac:(show_stored))
    as (_ & _ & _ & w' & Hr & _ & Hst).
  exists w'. split; assumption.
Defined.

Lemma difference_spec_witness :
  exists w',
    differenceUpdate BoolPickle.dumps BoolPickle.loads 0%nat [{[true]}] BoolPickle.s1 =
      (Return tt, w', [Acquire "s"; Snapshot "s"; Release "s"]) /\
    stored BoolPickle.loads w' 0%nat (foldl (∖) {[true]} [{[true]}]).
Proof.
  destruct (difference_spec BoolPickle.dumps BoolPickle.loads
              bool_loads_dumps bool_dumps_end
              BoolPickle.s1 0%nat "s" {[true]} [{[true]}] ∅
              ltac:(show_live) ltac:(show_stored))
    as (_ & _ & _ & w' & Hr & _ & Hst).
  exists w'. split; assumption.
Defined.

Lemma symmetric_difference_spec_witness :
  exists w' w'',
    symmetricDifferenceUpdate BoolPickle.dumps BoolPickle.loads 0%nat
        {[true; false]} BoolPickle.s1 =
      (Return tt, w', [Acquire "s"; Snapshot "s"; Release "s"]) /\
    symmetricDifferenceUpdate BoolPickle.dumps BoolPickle.loads 0%nat
        {[true; false]} w' =
      (Return tt, w'', [Acquire "s"; Snapshot "s"; Release "s"]) /\
    stored BoolPickle.loads w'' 0%nat {[true]}.
Proof.
  destruct (symmetric_difference_spec BoolPickle.dumps BoolPickle.loads
              bool_loads_dumps bool_dumps_end
              BoolPickle.s1 0%nat "s" {[true]} {[true; false]}
              ltac:(show_live) ltac:(show_stored))
    as (_ & _ & _ & w' & w'' & Hr & _ & Hr' & _ & Hst).
  exists w', w''. repeat (split; [assumption|]). exact Hst.
Defined.

Lemma queries_spec_witness :
  __len__ BoolPickle.loads 0%nat BoolPickle.s1 =
    (Return (Z.of_nat (size ({[true]} : gset bool))), BoolPickle.s1,
     [Acquire "s"; Snapshot "s"; Release "s"]) /\
  __contains__ BoolPickle.loads 0%nat false BoolPickle.s1 =
    (Return (bool_decide (false ∈ ({[true]} : gset bool))), BoolPickle.s1,
     [Acquire "s"; Snapshot "s"; Release "s"]).
Proof.
  destruct (queries_spec BoolPickle.loads BoolPickle.s1 0%nat "s" {[true]} false ∅
              ltac:(show_live) ltac:(show_stored)) as (Hc & Hl & _).
  split; assumption.
Defined.

Lemma eq_set_spec_witness :
  __eq__ BoolPickle.loads 0%nat (OSet {[true]}) BoolPickle.s1 =
    (Return (bool_decide (({[true]} : gset bool) = {[true]})), BoolPickle.s1,
     [Acquire "s"; Snapshot "s"; Release "s"]).
Proof.
  destruct (eq_set_spec BoolPickle.loads BoolPickle.s1 0%nat "s" {[true]} {[true]}
              ltac:(show_live) ltac:(show_stored)) as (He & _).
  exact He.
Defined.

Lemma lt_gt_spec_witness :
  outcome_of (__lt__ BoolPickle.loads 0%nat {[true; false]} BoolPickle.s1) =
    Return (bool_decide (({[true]} : gset bool) ⊆ {[true; false]}) &&
            negb (bool_decide (({[true]} : gset bool) = {[true; false]}))) /\
  trace_of (__lt__ BoolPickle.loads 0%nat {[true; false]} BoolPickle.s1) =
    (if bool_decide (({[true]} : gset bool) ⊆ {[true; false]})
     then [Acquire "s"; Snapshot "s"; Release "s"] ++
          [Acquire "s"; Snapshot "s"; Release "s"]
     else [Acquire "s"; Snapshot "s"; Release "s"]).
Proof.
  destruct (lt_gt_spec BoolPickle.loads BoolPickle.s1 0%nat "s" {[true]} {[true; false]}
              ltac:(show_live) ltac:(show_stored)) as (Hlt & _).
  cbv zeta in Hlt. rewrite Hlt. split; reflexivity.
Defined.


Lemma close_spec_witness :
  exists w',
    close (T:=bool) 0%nat BoolPickle.pair = (Return tt, w', []) /\
    _readData BoolPickle.loads 0%nat w' = (Raise TypeError, w', []) /\
    stored BoolPickle.loads w' 1%nat {[true]}.
Proof.
  destruct (close_spec BoolPickle.dumps BoolPickle.loads BoolPickle.pair 0%nat "s" true
              ltac:(show_live)) as (w' & Hc & _ & _ & Hr & _ & _ & Hothers).
  exists w'. split; [exact Hc|]. split; [exact Hr|].
  apply (Hothers 1%nat "s" {[true]}); [discriminate|show_live|show_stored].
Defined.

Lemma shared_segment_visible_witness :
  exists w',
    add BoolPickle.dumps BoolPickle.loads 0%nat false BoolPickle.pair =
      (Return tt, w', [Acquire "s"; Snapshot "s"; Release "s"]) /\
    stored BoolPickle.loads w' 1%nat ({[false]} ∪ {[true]}).
Proof.
  destruct (shared_segment_visible BoolPickle.dumps BoolPickle.loads
              bool_loads_dumps bool_dumps_end
              BoolPickle.pair 0%nat 1%nat "s" {[true]} false 64
              ltac:(show_live) ltac:(show_live) ltac:(show_stored)
              ltac:(by_evaluation) ltac:(by_evaluation))
    as (w' & Hr & _ & Hst & _).
  exists w'. split; assumption.
Defined.

Lemma growth_leaves_others_stale_witness :
  exists w',
    add BoolPickle.dumps BoolPickle.loads 0%nat true BoolPickle.pair8 =
      (Return tt, w', [Acquire "s"; Snapshot "s"; Release "s"]) /\
    stored BoolPickle.loads w' 0%nat ({[true]} ∪ ∅) /\
    stored BoolPickle.loads w' 1%nat ∅.
Proof.
  destruct (growth_leaves_others_stale BoolPickle.dumps BoolPickle.loads
              bool_loads_dumps bool_dumps_end
              BoolPickle.pair8 0%nat 1%nat "s" ∅ true 8
              ltac:(show_live) ltac:(show_live) ltac:(discriminate)
              ltac:(show_stored) ltac:(by_evaluation) ltac:(by_evaluation))
    as (w' & Hr & _ & Hst & _ & Hstr & _).
  exists w'. repeat (split; [assumption|]). exact Hstr.
Defined.

Lemma unlink_spec_witness :
  exists w' w'',
    unlink (T:=bool) 0%nat BoolPickle.s1 = (Return tt, w', []) /\
    __init__ BoolPickle.dumps "s" 16 w' = (Return 1%nat, w'', []) /\
    stored BoolPickle.loads w'' 1%nat ∅ /\
    stored BoolPickle.loads w'' 0%nat {[true]}.
Proof.
  destruct (unlink_spec BoolPickle.dumps BoolPickle.loads
              bool_loads_dumps bool_dumps_end
              BoolPickle.s1 0%nat "s" {[true]} 16
              s1_wf ltac:(show_live) ltac:(show_stored) ltac:(by_evaluation))
    as (w' & Hu & _ & _ & _ & _ & w'' & Hi & Hnew & Hold).
  exists w', w''. repeat (split; [assumption|]). exact Hold.
Defined.

Lemma open_existing_or_invalid_witness :
  exists w',
    __init__ BoolPickle.dumps "s" 0 BoolPickle.s1 = (Return 1%nat, w', []) /\
    capacity w' 1%nat = Some 64.
Proof.
  destruct (proj1 (open_existing_or_invalid BoolPickle.dumps BoolPickle.loads
                     BoolPickle.s1 "s" 0)
              0%nat (BoolPickle.dumps {[true]} ++ zeros 47)
              ltac:(by_evaluation) ltac:(by_evaluation))
    as (w' & Hi & _ & _ & Hc & _).
  exists w'. split; [exact Hi|exact Hc].
Defined.


Lemma locks_disciplined_witness :
  lock_check []
    (trace_of (run BoolPickle.dumps BoolPickle.loads BoolPickle.pick
                   (Eq (ORememorySet 1%nat)) 0%nat BoolPickle.pair)) = Some [].
Proof.
  apply (proj1 (locks_disciplined BoolPickle.dumps BoolPickle.loads BoolPickle.pick
                  (Eq (ORememorySet 1%nat)) 0%nat BoolPickle.pair pair_wf)).
  discriminate.
Defined.

Lemma s8_wf : wf BoolPickle.s8.
Proof.
  apply (inv_reachable BoolPickle.dumps BoolPickle.loads BoolPickle.pick
           bool_loads_dumps bool_dumps_end).
  apply reach_init. apply reach_empty.
Qed.



Lemma add_remove_roundtrip_witness :
  exists w1 w2,
    add BoolPickle.dumps BoolPickle.loads 0%nat false BoolPickle.s1 =
      (Return tt, w1, [Acquire "s"; Snapshot "s"; Release "s"]) /\
    remove BoolPickle.dumps BoolPickle.loads 0%nat false w1 =
      (Return tt, w2, [Acquire "s"; Snapshot "s"; Release "s"]) /\
    stored BoolPickle.loads w2 0%nat {[true]}.
Proof.
  destruct (add_remove_roundtrip BoolPickle.dumps BoolPickle.loads
              bool_loads_dumps bool_dumps_end
              BoolPickle.s1 0%nat "s" {[true]} false
              ltac:(show_live) ltac:(show_stored)) as [Hout _].
  destruct (Hout ltac:(rewrite elem_of_singleton; discriminate))
    as (w1 & w2 & Ha & Hr & _ & Hst).
  exists w1, w2. repeat (split; [assumption|]). exact Hst.
Defined.

Lemma open_tiny_capacity_witness :
  exists w',
    __init__ BoolPickle.dumps "s" 2 empty_world = (Return 0%nat, w', []) /\
    length (shm_mem w') = 2%nat /\
    capacity w' 0%nat = Some 5.
Proof.
  destruct (open_tiny_capacity BoolPickle.dumps BoolPickle.loads
              bool_loads_dumps bool_dumps_end empty_world "s" 2
              ltac:(by_evaluation) ltac:(by_evaluation) ltac:(by_evaluation))
    as (w' & Hi & Hlen & _ & _ & Hc & _).
  exists w'. split; [exact Hi|]. split; [exact Hlen|exact Hc].
Defined.

Lemma capacity_never_shrinks_witness :
  exists c',
    capacity (world_of (run BoolPickle.dumps BoolPickle.loads BoolPickle.pick
                            (Add true) 0%nat BoolPickle.s8)) 0%nat = Some c' /\
    8 <= c'.
Proof.
  exact (capacity_never_shrinks BoolPickle.dumps BoolPickle.loads BoolPickle.pick
           (Add true) 0%nat 0%nat BoolPickle.s8 8 s8_wf ltac:(by_evaluation)).
Defined.

